(** * react-hook-stepper: the step navigation engine, the step actions and
      the persistence adapter, embedded in Rocq.

    The hooks of the library ([useStepNavigation], [useStepsActions],
    [useStepperSync]) are closures over the React state cells
    [stepperState], [currentStep], [loading], over the browser's
    [localStorage] and over [console].  They are embedded as functions on
    an explicit [World] holding those cells, in a small monad with
    exceptions ([throw], [try]/[catch]/[finally]).

    - A hook call reads the cells as its closure captured them, that is as
      they are when the call starts, and writes through the setters.  Calls
      are run one at a time: an [await] is the evaluation of the callback's
      outcome, with nothing interleaved.
    - The values the hooks handle are untyped at run time, so steps,
      patches, the shared payload and the configuration are JavaScript
      values, with sparse arrays, [undefined] and the exceptions that
      reading a property of [undefined] throws.
    - The aggregate root [StepperState] and its [generalInfo] are records;
      the numbers of [generalInfo] are exact integers and rationals.
    - A JSON text is the tree it denotes; [localStorage] is a finite map of
      such texts that may refuse a write. *)

From Stdlib Require Import ZArith QArith String List Bool Lia.
From stdpp Require Import base option list strings gmap.
Import ListNotations.

#[local] Set Warnings "-register-all".
#[local] Open Scope string_scope.
#[local] Open Scope Z_scope.

(** ** JavaScript values *)

(** A JavaScript number: a finite number, taken as an exact rational, or one
    of the three non-finite doubles. *)
Inductive JsNumber :=
| Finite (q : Q)
| NaN
| PosInfinity
| NegInfinity.

(** An array is a list of slots, [None] being a hole of a sparse array (an
    index below [length] that was never assigned).  An object is the list of
    its own enumerable string-keyed properties in insertion order, each key
    occurring once. *)
Inductive JsVal :=
| JUndefined
| JNull
| JBool (b : bool)
| JNum (n : JsNumber)
| JStr (s : string)
| JArr (elems : list (option JsVal))
| JObj (props : list (string * JsVal)).

Abbreviation JsObject := (list (string * JsVal)).
Abbreviation JsArray := (list (option JsVal)).

(** [v == null], the test behind [??] and [?.]. *)
Definition nullish (v : JsVal) : bool :=
  match v with
  | JUndefined | JNull => true
  | _ => false
  end.

(** ToBoolean, the test behind [!v], [v || w] and [v ? a : b]. *)
Definition truthy (v : JsVal) : bool :=
  match v with
  | JUndefined | JNull => false
  | JBool b => b
  | JNum (Finite q) => negb (Qeq_bool q 0)
  | JNum NaN => false
  | JNum _ => true
  | JStr s => negb (String.eqb s "")
  | JArr _ | JObj _ => true
  end.

(** [v === true]. *)
Definition strict_true (v : JsVal) : bool :=
  match v with
  | JBool true => true
  | _ => false
  end.

(** [a ?? b] when [b] cannot throw. *)
Definition nullish_coalesce (a b : JsVal) : JsVal :=
  if nullish a then b else a.

(** [a || b]. *)
Definition logical_or (a b : JsVal) : JsVal :=
  if truthy a then a else b.

(** *** Objects *)

Fixpoint own_property (k : string) (o : JsObject) : option JsVal :=
  match o with
  | [] => None
  | (k', v) :: o' => if String.eqb k' k then Some v else own_property k o'
  end.

(** [o.k] on an object: [undefined] when [o] has no such property. *)
Definition obj_get (o : JsObject) (k : string) : JsVal :=
  default JUndefined (own_property k o).

(** [o.k = v]: an existing property keeps its place, a new one goes last. *)
Fixpoint obj_set (k : string) (v : JsVal) (o : JsObject) : JsObject :=
  match o with
  | [] => [(k, v)]
  | (k', v') :: o' =>
      if String.eqb k' k then (k, v) :: o' else (k', v') :: obj_set k v o'
  end.

(** [{ ...target, ...source }]. *)
Definition obj_spread (target source : JsObject) : JsObject :=
  fold_left (fun acc kv => obj_set kv.1 kv.2 acc) source target.

(** [Object.keys(o)]. *)
Definition object_keys (o : JsObject) : list string := map fst o.

(** The own properties copied by [{ ...v }].  Spreading [undefined], [null],
    a boolean or a number copies nothing.  (The indexed properties of a
    spread string or array are left out: the hooks only ever spread a step,
    a patch or the shared payload.) *)
Definition own_props (v : JsVal) : JsObject :=
  match v with
  | JObj o => o
  | _ => []
  end.

(** [v?.k].  For the keys the hooks read (the flag names, [name] and the
    configuration paths) a primitive or an array has no such property. *)
Definition opt_member (v : JsVal) (k : string) : JsVal :=
  match v with
  | JObj o => obj_get o k
  | _ => JUndefined
  end.

(** *** Arrays *)

(** [a[i]] for an integer [i]: [undefined] on a hole, out of range and at a
    negative index. *)
Definition arr_get (a : JsArray) (i : Z) : JsVal :=
  if i <? 0 then JUndefined
  else match a !! Z.to_nat i with
       | Some (Some v) => v
       | _ => JUndefined
       end.

(** [a[i] = v] for an integer [i].  Within range the slot is overwritten.
    At [i >= a.length] JavaScript extends the array: the slots between the
    old length and [i] become holes (indices are taken below [2^32 - 1], the
    largest an array can have).  A negative [i] is not an array index:
    the assignment creates an ordinary property named ["-1"], ... on the
    array object, which no element, [length], [map], [filter], spread or
    [JSON.stringify] ever sees. *)
Definition arr_set (a : JsArray) (i : Z) (v : JsVal) : JsArray :=
  if i <? 0 then a
  else
    let n := Z.to_nat i in
    if (n <? length a)%nat then <[n := Some v]> a
    else a ++ replicate (n - length a)%nat None ++ [Some v].

(** [[...a]]: iteration reads every index below [length], so the copy is
    dense and a hole of [a] becomes an [undefined] element. *)
Definition arr_spread (a : JsArray) : JsArray :=
  map (fun slot => Some (default JUndefined slot)) a.

(** The slots of an array value. *)
Definition elements (v : JsVal) : JsArray :=
  match v with
  | JArr elems => elems
  | _ => []
  end.

(** ** Errors and console output *)

(** The messages of the errors the hooks construct; the template literal of
    the source is given with each. *)
Inductive ErrorMessage :=
| StepDoesNotExist (nextStep : Z)
    (* `The step ${nextStep} does not exist.` *)
| InvalidDataProvided (data : JsObject)
    (* `Invalid data provided: ${JSON.stringify(data)}. Valid keys are:
        canAccess, canEdit, isOptional, isCompleted` *)
| InvalidStepIndex (stepIndex : Z)
    (* `Invalid stepIndex: ${stepIndex}.` *)
| Literal (text : string).
    (* any other message, such as that of an error a callback rejects with *)

Inductive JsError :=
| Error (message : ErrorMessage)
| TypeError (target : JsVal) (property : string)
    (* Cannot read properties of undefined (reading 'isCompleted') *)
| QuotaExceededError
    (* localStorage.setItem when the store refuses the write *)
| SyntaxError.
    (* JSON.parse on a text that is not JSON *)

Inductive ConsoleCall :=
| WarnLastStep
    (* console.warn("You are already on the last step.") *)
| WarnFirstStep
    (* console.warn("You are already on the first step.") *)
| WarnNotAccessible (nextStep : Z)
    (* console.warn(`The step ${nextStep} is not accessible because it is
       not available.`) *)
| ErrorInStepNavigation (error : JsError)
    (* console.error("Error in step navigation:", error) *)
| WarnFailedToSave (error : JsError)
    (* console.warn("Failed to save to localStorage:", error) *)
| WarnFailedToLoad (error : JsError)
    (* console.warn("Failed to load from localStorage:", error) *)
| WarnFailedToClear (error : JsError).
    (* console.warn("Failed to clear from localStorage:", error) *)

(** The result of evaluating an expression or running a function body: a
    value, or a thrown exception (for an [async] function, a rejected
    promise). *)
Inductive Outcome (A : Type) :=
| Returned (a : A)
| Thrown (e : JsError).
Arguments Returned {A} a.
Arguments Thrown {A} e.

Definition outcome_bind {A B} (m : Outcome A) (k : A -> Outcome B) : Outcome B :=
  match m with
  | Returned a => k a
  | Thrown e => Thrown e
  end.

(** [v.k]: reading a property of [undefined] or [null] throws. *)
Definition member (v : JsVal) (k : string) : Outcome JsVal :=
  match v with
  | JUndefined | JNull => Thrown (TypeError v k)
  | JObj o => Returned (obj_get o k)
  | _ => Returned JUndefined
  end.

(** [a ?? b] where evaluating [b] may throw: [b] is evaluated only when [a]
    is nullish. *)
Definition nullish_or (a : JsVal) (b : Outcome JsVal) : Outcome JsVal :=
  if nullish a then b else Returned a.

(** ** JSON *)

(** A JSON text is represented by the tree it denotes: [JSON.stringify]
    produces such a text and [JSON.parse] reads it back, the characters in
    between carrying nothing else. *)
Inductive Json :=
| JsonNull
| JsonBool (b : bool)
| JsonNum (q : Q)
| JsonStr (s : string)
| JsonArr (elems : list Json)
| JsonObj (members : list (string * Json)).

(** The members [JSON.stringify] writes for the properties of an object:
    a property whose value has no JSON text is left out. *)
Definition json_members (stringify : JsVal -> option Json)
    : JsObject -> list (string * Json) :=
  fix members (props : JsObject) : list (string * Json) :=
    match props with
    | [] => []
    | (k, x) :: props' =>
        match stringify x with
        | Some j => (k, j) :: members props'
        | None => members props'
        end
    end.

(** [JSON.stringify(v)], [None] being [undefined] (no text).  Inside an
    array [undefined] and holes are written [null]; inside an object a
    property whose value is [undefined] is left out; [NaN] and the
    infinities are written [null]. *)
Fixpoint JSON_stringify (v : JsVal) : option Json :=
  match v with
  | JUndefined => None
  | JNull => Some JsonNull
  | JBool b => Some (JsonBool b)
  | JNum (Finite q) => Some (JsonNum q)
  | JNum _ => Some JsonNull
  | JStr s => Some (JsonStr s)
  | JArr elems =>
      Some (JsonArr
              (map (fun slot =>
                      match slot with
                      | Some x => default JsonNull (JSON_stringify x)
                      | None => JsonNull
                      end) elems))
  | JObj props => Some (JsonObj (json_members JSON_stringify props))
  end.

(** The object [JSON.parse] builds from the members of a JSON object: they
    are assigned in order, so a repeated name keeps its last value. *)
Definition json_assign (value : Json -> JsVal)
    : list (string * Json) -> JsObject -> JsObject :=
  fix assign (members : list (string * Json)) (acc : JsObject) : JsObject :=
    match members with
    | [] => acc
    | (k, e) :: members' => assign members' (obj_set k (value e) acc)
    end.

(** The value [JSON.parse] builds from a JSON text. *)
Fixpoint JSON_value (j : Json) : JsVal :=
  match j with
  | JsonNull => JNull
  | JsonBool b => JBool b
  | JsonNum q => JNum (Finite q)
  | JsonStr s => JStr s
  | JsonArr elems => JArr (map (fun e => Some (JSON_value e)) elems)
  | JsonObj members => JObj (json_assign JSON_value members [])
  end.

(** The values JSON can carry: no [undefined], no hole, no [NaN] or
    infinity, at any depth (and, of the representation, objects whose keys
    are distinct). *)
Fixpoint json_representable (v : JsVal) : bool :=
  match v with
  | JUndefined => false
  | JNull | JBool _ | JStr _ => true
  | JNum (Finite _) => true
  | JNum _ => false
  | JArr elems =>
      forallb (fun slot => match slot with
                           | Some x => json_representable x
                           | None => false
                           end) elems
  | JObj props =>
      bool_decide (NoDup (object_keys props))
      && forallb (fun kv => let (_, x) := kv : string * JsVal in json_representable x)
                 props
  end.

(** ** localStorage *)

(** A stored string: a JSON text, or some other string (one [JSON.parse]
    rejects, or the empty string). *)
Inductive StorageText :=
| JsonText (j : Json)
| PlainText (s : string).

(** The string [localStorage.setItem(key, JSON.stringify(data))] stores:
    [setItem] converts its argument to a string, so the [undefined] that
    [JSON.stringify] returns for [undefined] is stored as ["undefined"]. *)
Definition stored_text (text : option Json) : StorageText :=
  match text with
  | Some j => JsonText j
  | None => PlainText "undefined"
  end.

Definition JSON_parse (t : StorageText) : Outcome JsVal :=
  match t with
  | JsonText j => Returned (JSON_value j)
  | PlainText _ => Thrown SyntaxError
  end.

(** [item ? ... : ...] on a string: only the empty string is falsy. *)
Definition nonempty_text (t : StorageText) : bool :=
  match t with
  | JsonText _ => true
  | PlainText s => negb (String.eqb s "")
  end.

(** The origin's store.  [refusesWrites] stands for the conditions under
    which [setItem] throws (quota exceeded, storage disabled). *)
Record LocalStorage := mkLocalStorage {
  items : gmap string StorageText;
  refusesWrites : bool
}.

(** ** The stepper state

    The hooks import their types from [types/StepTypes], which is not among
    the sources; the records below follow section 3 of the specification
    and the fields the hooks read and write. *)

(** Modelled from the spec: the type [GeneralInfo] of [types/StepTypes].
    [totalSteps] is an integer; the three progress ratios are exact
    rationals (in the source, the doubles nearest to them). *)
Record GeneralInfo := mkGeneralInfo {
  totalSteps : Z;
  currentProgress : Q;
  completedProgress : Q;
  canAccessProgress : Q
}.

(** Modelled from the spec: the type [StepperState<T>] of [types/StepTypes].
    [steps] is the array as it is at run time, holes and elements of any
    kind included; [generalState] is the payload object; the optional
    [isLoadedFromLocalStorage] is [None] when the property is absent. *)
Record StepperState := mkStepperState {
  generalInfo : GeneralInfo;
  steps : JsArray;
  generalState : JsObject;
  isLoadedFromLocalStorage : option bool
}.

(** Modelled from the spec: the type [UpdateStepInput] of [types/StepTypes],
    one entry of [updateSteps] and of the [updateStepsStatus] option.
    [stepIndex] is taken to be an integer, and [data] an object with any
    keys. *)
Record UpdateStepInput := mkUpdateStepInput {
  stepIndex : Z;
  data : JsObject
}.

(** The state as the JavaScript object it is, for [JSON.stringify]. *)
Definition GeneralInfo_value (g : GeneralInfo) : JsVal :=
  JObj [("totalSteps", JNum (Finite (inject_Z (totalSteps g))));
        ("currentProgress", JNum (Finite (currentProgress g)));
        ("completedProgress", JNum (Finite (completedProgress g)));
        ("canAccessProgress", JNum (Finite (canAccessProgress g)))].

Definition StepperState_value (s : StepperState) : JsVal :=
  JObj ([("generalInfo", GeneralInfo_value (generalInfo s));
         ("steps", JArr (steps s));
         ("generalState", JObj (generalState s))]
        ++ match isLoadedFromLocalStorage s with
           | Some b => [("isLoadedFromLocalStorage", JBool b)]
           | None => []
           end).

(** ** The world of a hook call, and the monad of its effects *)

Record World := mkWorld {
  stepperState : StepperState;   (* useState cell of the provider *)
  currentStep : Z;               (* useState cell of the provider *)
  loading : bool;                (* useState cell of the provider *)
  localStorage : LocalStorage;
  console : list ConsoleCall     (* calls so far, oldest first *)
}.

Definition M (A : Type) : Type := World -> Outcome A * World.

Definition ret {A} (a : A) : M A := fun w => (Returned a, w).

Definition throw {A} (e : JsError) : M A := fun w => (Thrown e, w).

Definition bind {A B} (m : M A) (k : A -> M B) : M B :=
  fun w =>
    match m w with
    | (Returned a, w') => k a w'
    | (Thrown e, w') => (Thrown e, w')
    end.

(** A computation without effects, or a promise being awaited. *)
Definition lift {A} (o : Outcome A) : M A := fun w => (o, w).

(** [try { body } catch (error) { handler }]. *)
Definition try_catch {A} (body : M A) (handler : JsError -> M A) : M A :=
  fun w =>
    match body w with
    | (Thrown e, w') => handler e w'
    | r => r
    end.

(** [try { body } finally { cleanup }]. *)
Definition try_finally {A} (body : M A) (cleanup : M unit) : M A :=
  fun w =>
    let (r, w') := body w in
    match cleanup w' with
    | (Returned _, w'') => (r, w'')
    | (Thrown e, w'') => (Thrown e, w'')
    end.

Declare Scope js_scope.
Delimit Scope js_scope with js.
Notation "x <- m ;; k" := (bind m (fun x => k))
  (at level 100, m at next level, right associativity) : js_scope.
Notation "m ;; k" := (bind m (fun _ => k))
  (at level 100, right associativity) : js_scope.
#[local] Open Scope js_scope.

Definition setLoading (b : bool) : M unit :=
  fun w => (Returned tt,
            mkWorld (stepperState w) (currentStep w) b (localStorage w) (console w)).

Definition setCurrentStep (i : Z) : M unit :=
  fun w => (Returned tt,
            mkWorld (stepperState w) i (loading w) (localStorage w) (console w)).

(** [updateStepperState(updater)], the functional form of the setter. *)
Definition updateStepperStateWith (f : StepperState -> StepperState) : M unit :=
  fun w => (Returned tt,
            mkWorld (f (stepperState w)) (currentStep w) (loading w)
                    (localStorage w) (console w)).

(** [updateStepperState(newState)]. *)
Definition updateStepperState (s : StepperState) : M unit :=
  updateStepperStateWith (fun _ => s).

Definition console_call (c : ConsoleCall) : M unit :=
  fun w => (Returned tt,
            mkWorld (stepperState w) (currentStep w) (loading w)
                    (localStorage w) (console w ++ [c])).

Definition with_localStorage {A} (f : LocalStorage -> Outcome A * LocalStorage) : M A :=
  fun w =>
    let (r, ls) := f (localStorage w) in
    (r, mkWorld (stepperState w) (currentStep w) (loading w) ls (console w)).

Definition localStorage_setItem (key : string) (text : option Json) : M unit :=
  with_localStorage (fun ls =>
    if refusesWrites ls then (Thrown QuotaExceededError, ls)
    else (Returned tt,
          mkLocalStorage (<[key := stored_text text]> (items ls)) (refusesWrites ls))).

Definition localStorage_getItem (key : string) : M (option StorageText) :=
  with_localStorage (fun ls => (Returned (items ls !! key), ls)).

Definition localStorage_removeItem (key : string) : M unit :=
  with_localStorage (fun ls =>
    (Returned tt, mkLocalStorage (delete key (items ls)) (refusesWrites ls))).

(** Modelled from the spec: the type [StepStateCallback<T>] of
    [types/StepTypes], the completion callback a caller may pass.  It
    receives a state, and the promise it returns resolves or rejects. *)
Definition StepStateCallback := StepperState -> Outcome unit.

(** The options of [onNext], [onPrev] and [goToStep].  An option that is
    left out is [None] (for [updateStepsStatus], whose parameter defaults to
    [[]], the empty list), and so is every one of them when [args] itself is
    left out.  [statusUpdates] is the name the source gives
    [args.updateStepsStatus] when it unpacks [args]; [updateGeneralStates]
    holds the [data] of that option. *)
Record NavigationArgs := mkNavigationArgs {
  onCompleteStep : option StepStateCallback;
  statusUpdates : list UpdateStepInput;
  updateGeneralStates : option JsObject
}.

Definition no_args : NavigationArgs := mkNavigationArgs None [] None.

Notation "x <~ m ;; k" := (outcome_bind m (fun x => k))
  (at level 100, m at next level, right associativity) : js_scope.

(** [a.map(f)]: [f] is called on the elements in index order and a hole
    stays a hole; an exception thrown by [f] ends the loop. *)
Fixpoint array_map_from (f : nat -> JsVal -> Outcome JsVal) (index : nat)
    (a : JsArray) : Outcome JsArray :=
  match a with
  | [] => Returned []
  | None :: a' =>
      rest <~ array_map_from f (S index) a';;
      Returned (None :: rest)
  | Some v :: a' =>
      v' <~ f index v;;
      rest <~ array_map_from f (S index) a';;
      Returned (Some v' :: rest)
  end.

Definition array_map (f : nat -> JsVal -> Outcome JsVal) (a : JsArray) : Outcome JsArray :=
  array_map_from f 0%nat a.

(** [a.filter(keep)]: holes are skipped, the result is dense. *)
Fixpoint array_filter (keep : JsVal -> Outcome bool) (a : JsArray) : Outcome (list JsVal) :=
  match a with
  | [] => Returned []
  | None :: a' => array_filter keep a'
  | Some v :: a' =>
      b <~ keep v;;
      rest <~ array_filter keep a';;
      Returned (if b : bool then v :: rest else rest)
  end.

(** [totalSteps || 1]. *)
Definition or_one (totalSteps : Z) : Z :=
  if totalSteps =? 0 then 1 else totalSteps.

(** [n / d] on integers. *)
Definition ratio (n d : Z) : Q := (inject_Z n / inject_Z d)%Q.

(** ** useStepNavigation *)

Module useStepNavigation.
Section hook.

(** The [config] prop of the hook. *)
Variable config : JsVal.

(** [config.a?.b?.c]. *)
Definition config_path (path : list string) : JsVal :=
  fold_left opt_member path config.

Definition calculateProgress (steps : JsArray) (totalSteps : Z) : Outcome (Q * Q) :=
  completed <~ array_filter
                 (fun item => x <~ member item "isCompleted";; Returned (strict_true x))
                 steps;;
  accessible <~ array_filter
                  (fun item => x <~ member item "canAccess";; Returned (strict_true x))
                  steps;;
  Returned (ratio (Z.of_nat (length completed)) (or_one totalSteps),
            ratio (Z.of_nat (length accessible)) (or_one totalSteps)).

(** Every patch is laid over the step of the state the call started from
    ([currentState.steps[i]], not [updatedSteps[i]]), at an index that is
    not checked. *)
Definition updateStepsStatus (currentState : StepperState)
    (updates : list UpdateStepInput) : JsArray :=
  fold_left
    (fun updatedSteps updateStep =>
       arr_set updatedSteps (stepIndex updateStep)
         (JObj (obj_spread
                  (own_props (arr_get (steps currentState) (stepIndex updateStep)))
                  (data updateStep))))
    updates
    (arr_spread (steps currentState)).

(** [{ ...step, canAccess: a, isCompleted: b, isOptional: c, canEdit: d }],
    the four expressions evaluated in this order. *)
Definition with_flags (step : JsVal)
    (canAccess isCompleted isOptional canEdit : Outcome JsVal) : Outcome JsVal :=
  a <~ canAccess;;
  b <~ isCompleted;;
  c <~ isOptional;;
  d <~ canEdit;;
  Returned (JObj (obj_set "canEdit" d
                   (obj_set "isOptional" c
                     (obj_set "isCompleted" b
                       (obj_set "canAccess" a (own_props step)))))).

(** [targetStepIndex] is an optional parameter of the source; its one
    caller always passes it. *)
Definition updateStepStates (steps : JsArray) (currentStepIndex targetStepIndex : Z)
    (isMovingForward : bool) : Outcome JsArray :=
  array_map
    (fun index step =>
       let isCurrentStep := Z.of_nat index =? currentStepIndex in
       let isTargetStep := Z.of_nat index =? targetStepIndex in
       if isCurrentStep && isMovingForward then
         with_flags step
           (nullish_or (config_path ["next"; "currentStep"; "canAccess"])
                       (member step "canAccess"))
           (nullish_or (config_path ["next"; "currentStep"; "isCompleted"])
                       (Returned (JBool true)))
           (nullish_or (config_path ["next"; "currentStep"; "isOptional"])
                       (member step "isOptional"))
           (nullish_or (config_path ["next"; "currentStep"; "canEdit"])
                       (member step "canEdit"))
       else if isCurrentStep && negb isMovingForward then
         with_flags step
           (nullish_or (config_path ["prev"; "currentStep"; "canAccess"])
                       (member step "canAccess"))
           (nullish_or (config_path ["prev"; "currentStep"; "isCompleted"])
                       (member step "isCompleted"))
           (nullish_or (config_path ["prev"; "currentStep"; "isOptional"])
                       (member step "isOptional"))
           (nullish_or (config_path ["prev"; "currentStep"; "canEdit"])
                       (member step "canEdit"))
       else if isTargetStep && isMovingForward then
         with_flags step
           (nullish_or (config_path ["next"; "nextStep"; "canAccess"])
                       (Returned (JBool true)))
           (nullish_or (config_path ["next"; "nextStep"; "isCompleted"])
                       (member step "isCompleted"))
           (nullish_or (config_path ["next"; "nextStep"; "isOptional"])
                       (member step "isOptional"))
           (nullish_or (config_path ["next"; "nextStep"; "canEdit"])
                       (member step "canEdit"))
       else if isTargetStep && negb isMovingForward then
         with_flags step
           (nullish_or (config_path ["prev"; "prevStep"; "canAccess"])
                       (member step "canAccess"))
           (nullish_or (config_path ["prev"; "prevStep"; "isCompleted"])
                       (member step "isCompleted"))
           (nullish_or (config_path ["prev"; "prevStep"; "isOptional"])
                       (member step "isOptional"))
           (nullish_or (config_path ["prev"; "prevStep"; "canEdit"])
                       (member step "canEdit"))
       else Returned step)
    steps.

Definition saveToLocalStorage (state : StepperState) : M unit :=
  if truthy (opt_member config "saveLocalStorage") then
    localStorage_setItem "stepperState" (JSON_stringify (StepperState_value state))
  else ret tt.

(** [if (callback) await callback(state)]. *)
Definition await_callback (callback : option StepStateCallback)
    (state : StepperState) : M unit :=
  match callback with
  | Some f => lift (f state)
  | None => ret tt
  end.

Definition executeStepNavigation (targetStep : Z) (args : NavigationArgs) : M unit :=
  fun w =>
    (* the values the closure captured at render *)
    let stepperState := stepperState w in
    let currentStep := currentStep w in
    (setLoading true;;
     try_finally
       (try_catch
          (let currentState := stepperState in
           let updatedSteps := updateStepsStatus currentState (statusUpdates args) in
           let isMovingForward := targetStep >? currentStep in
           finalSteps <- lift (updateStepStates updatedSteps currentStep targetStep
                                 isMovingForward);;
           progress <- lift (calculateProgress finalSteps
                               (totalSteps (generalInfo currentState)));;
           let currentState :=
             mkStepperState
               (mkGeneralInfo
                  (totalSteps (generalInfo currentState))
                  (ratio (targetStep + 1)
                         (or_one (totalSteps (generalInfo currentState))))
                  (fst progress)
                  (snd progress))
               finalSteps
               (obj_spread (generalState currentState)
                           (default [] (updateGeneralStates args)))
               (isLoadedFromLocalStorage currentState) in
           saveToLocalStorage currentState;;
           await_callback (onCompleteStep args) currentState;;
           updateStepperState currentState;;
           setCurrentStep targetStep)
          (fun error => console_call (ErrorInStepNavigation error)))
       (setLoading false)) w.

Definition onNext (args : NavigationArgs) : M unit :=
  fun w =>
    let stepperState := stepperState w in
    let currentStep := currentStep w in
    (if currentStep >=? totalSteps (generalInfo stepperState) - 1 then
       (if truthy (opt_member config "saveLocalStorage") then
          localStorage_removeItem "stepperState"
        else ret tt);;
       await_callback (onCompleteStep args) stepperState;;
       console_call WarnLastStep
     else executeStepNavigation (currentStep + 1) args) w.

Definition onPrev (args : NavigationArgs) : M unit :=
  fun w =>
    let currentStep := currentStep w in
    (if currentStep =? 0 then console_call WarnFirstStep
     else executeStepNavigation (currentStep - 1) args) w.

Definition goToStep (nextStep : Z) (args : NavigationArgs) : M unit :=
  fun w =>
    let stepperState := stepperState w in
    let currentStep := currentStep w in
    (if (nextStep <? 0) || (nextStep >=? totalSteps (generalInfo stepperState)) then
       throw (Error (StepDoesNotExist nextStep))
     else if nextStep =? currentStep then ret tt
     else
       let validationCanAccess :=
         nullish_coalesce (config_path ["validations"; "goToStep"; "canAccess"])
                          (JBool true) in
       if truthy validationCanAccess && (nextStep >? currentStep)
          && negb (truthy (opt_member (arr_get (steps stepperState) nextStep)
                                      "canAccess"))
       then console_call (WarnNotAccessible nextStep)
       else executeStepNavigation nextStep args) w.

End hook.
End useStepNavigation.

(** [a.forEach(f)], ended by the first exception [f] throws. *)
Fixpoint for_each {A} (f : A -> Outcome unit) (a : list A) : Outcome unit :=
  match a with
  | [] => Returned tt
  | x :: a' => outcome_bind (f x) (fun _ => for_each f a')
  end.

(** [v !== undefined ? v : d]. *)
Definition unless_undefined (v d : JsVal) : JsVal :=
  match v with
  | JUndefined => d
  | _ => v
  end.

(** ** useStepsActions *)

Module useStepsActions.
Section hook.

Variable config : JsVal.

Definition saveToLocalStorage (state : StepperState) : M unit :=
  if truthy (opt_member config "saveLocalStorage") then
    localStorage_setItem "stepperState" (JSON_stringify (StepperState_value state))
  else ret tt.

(** [steps] is the [StepConfig[]] the caller passes, a dense array of
    objects. *)
Definition setStepsInfo (steps : list JsObject) : M unit :=
  updateStepperStateWith
    (fun prevState =>
       mkStepperState
         (mkGeneralInfo
            (Z.of_nat (length steps))
            0
            0
            (if Z.of_nat (length steps) >? 0
             then ratio 1 (Z.of_nat (length steps))
             else 0%Q))
         (imap
            (fun index step =>
               Some (JObj
                 [("name", obj_get step "name");
                  ("canAccess",
                     unless_undefined (obj_get step "canAccess")
                                      (JBool (Z.of_nat index =? 0)));
                  ("canEdit",
                     unless_undefined (obj_get step "canEdit") (JBool false));
                  ("isOptional", logical_or (obj_get step "isOptional") (JBool false));
                  ("isCompleted", logical_or (obj_get step "isCompleted") (JBool false))]))
            steps)
         (generalState prevState)
         (isLoadedFromLocalStorage prevState)).

Definition cleanLocalStorage : M unit :=
  localStorage_removeItem "stepperState".

Definition updateGeneralState (data : JsObject) : M StepperState :=
  fun w =>
    let stepperState := stepperState w in
    (let newState :=
       mkStepperState
         (generalInfo stepperState)
         (steps stepperState)
         (obj_spread (generalState stepperState) data)
         (isLoadedFromLocalStorage stepperState) in
     updateStepperState newState;;
     saveToLocalStorage newState;;
     ret newState) w.

Definition validKeys : list string :=
  ["canAccess"; "canEdit"; "isOptional"; "isCompleted"].

(** [validKeys.includes(key)]. *)
Definition includes (keys : list string) (key : string) : bool :=
  existsb (String.eqb key) keys.

Definition updateSteps (updates : list UpdateStepInput) : M StepperState :=
  fun w =>
    let stepperState := stepperState w in
    ((* Validate all updates before applying any *)
     lift (for_each
             (fun update =>
                let isValidData :=
                  forallb (includes validKeys) (object_keys (data update)) in
                if negb isValidData then
                  Thrown (Error (InvalidDataProvided (data update)))
                else if (stepIndex update <? 0)
                        || (stepIndex update >=? Z.of_nat (length (steps stepperState)))
                then Thrown (Error (InvalidStepIndex (stepIndex update)))
                else Returned tt)
             updates);;
     (* Apply all updates *)
     let updatedSteps :=
       fold_left
         (fun updatedSteps update =>
            arr_set updatedSteps (stepIndex update)
              (JObj (obj_spread
                       (own_props (arr_get updatedSteps (stepIndex update)))
                       (data update))))
         updates
         (arr_spread (steps stepperState)) in
     let newState :=
       mkStepperState
         (generalInfo stepperState)
         updatedSteps
         (generalState stepperState)
         (isLoadedFromLocalStorage stepperState) in
     updateStepperState newState;;
     saveToLocalStorage newState;;
     ret newState) w.

End hook.
End useStepsActions.

(** ** The superseded initialization

    The source tree still carries, after the current text of each hook, an
    older copy of it.  The embedding follows the current text.  Of the old
    one only [setStepsInfo] is kept here, for its other initialization
    policy: every step accessible and editable, and a zero
    [canAccessProgress]. *)

Module Legacy.

Definition setStepsInfo (steps : list JsObject) : M unit :=
  updateStepperStateWith
    (fun prevState =>
       mkStepperState
         (mkGeneralInfo (Z.of_nat (length steps)) 0 0 0)
         (imap
            (fun (index : nat) step =>
               Some (JObj
                 [("name", obj_get step "name");
                  ("canAccess",
                     unless_undefined (obj_get step "canAccess") (JBool true));
                  ("canEdit",
                     unless_undefined (obj_get step "canEdit") (JBool true));
                  ("isOptional", logical_or (obj_get step "isOptional") (JBool false));
                  ("isCompleted", logical_or (obj_get step "isCompleted") (JBool false))]))
            steps)
         (generalState prevState)
         (isLoadedFromLocalStorage prevState)).

End Legacy.

(** ** useStepperSync *)

Module useStepperSync.

Definition saveToLocalStorage (key : string) (data : JsVal) : M unit :=
  try_catch
    (localStorage_setItem key (JSON_stringify data))
    (fun error => console_call (WarnFailedToSave error)).

Definition loadFromLocalStorage (key : string) : M JsVal :=
  try_catch
    (item <- localStorage_getItem key;;
     match item with
     | Some text =>
         if nonempty_text text then lift (JSON_parse text) else ret JNull
     | None => ret JNull
     end)
    (fun error => console_call (WarnFailedToLoad error);; ret JNull).


End useStepperSync.

(** ** StepsContext *)

Module StepsContext.

(** The empty default state. *)
Definition baseState : StepperState :=
  mkStepperState (mkGeneralInfo 0 0 0 0) [] [] (Some false).

(** [a.filter(keep)] on a value that need not be an array: calling the
    method on [undefined], or on a value that has no such method (whatever
    [JSON.parse] returns other than an array), throws a [TypeError]. *)
Definition filter_method (a : JsVal) (keep : JsVal -> Outcome bool)
    : Outcome (list JsVal) :=
  match a with
  | JArr elems => array_filter keep elems
  | _ => Thrown (TypeError a "filter")
  end.

(** What [createInitialState] leaves behind: the state and the active index
    the provider's cells start from, and the error it passed to
    [console.error("Error loading from localStorage:", error)], if any.  The
    state is the object as parsed: nothing checks its shape. *)
Record InitialState := mkInitialState {
  state : JsVal;
  initialStep : Z;
  loadError : option JsError
}.

(** The body of the [try] block: the saved state and the index when the
    block returns them, [None] when it falls through (no blob, or an empty
    one). *)
Definition load_saved_state (ls : LocalStorage) : Outcome (option (JsVal * Z)) :=
  match items ls !! "stepperState" with
  | Some localStorageItem =>
      if nonempty_text localStorageItem then
        savedState <~ JSON_parse localStorageItem;;
        savedSteps <~ member savedState "steps";;
        completedSteps <~ filter_method savedSteps
                            (fun step => x <~ member step "isCompleted";;
                                         Returned (truthy x));;
        Returned (Some (JObj (obj_set "isLoadedFromLocalStorage" (JBool true)
                                      (own_props savedState)),
                        Z.of_nat (length completedSteps)))
      else Returned None
  | None => Returned None
  end.

(** [createInitialState(config)].  It reads the store and never writes it. *)
Definition createInitialState (config : JsVal) (ls : LocalStorage) : InitialState :=
  let fallback := mkInitialState (StepperState_value baseState) 0 in
  if truthy (opt_member config "saveLocalStorage") then
    match load_saved_state ls with
    | Returned (Some (savedState, completedSteps)) =>
        mkInitialState savedState completedSteps None
    | Returned None => fallback None
    | Thrown error => fallback (Some error)
    end
  else fallback None.

(** The [activeStep] the provider exposes: the step at the active index, or
    a placeholder when there is none, with its index and its position. *)
Definition activeStep (stepperState : StepperState) (currentStep : Z) : JsObject :=
  let currentActiveStep :=
    logical_or (arr_get (steps stepperState) currentStep)
               (JObj [("name", JStr "");
                      ("canAccess", JBool false);
                      ("canEdit", JBool false);
                      ("isOptional", JBool false);
                      ("isCompleted", JBool false)]) in
  obj_set "isFirstStep" (JBool (currentStep =? 0))
    (obj_set "isLastStep"
       (JBool (currentStep =? totalSteps (generalInfo stepperState) - 1))
       (obj_set "index" (JNum (Finite (inject_Z currentStep)))
          (own_props currentActiveStep))).

End StepsContext.

(** * Vocabulary of the statements *)

(** The state a navigation to [targetStep] computes inside its [try] block,
    before it persists, awaits the callback and commits: steps 1 to 6 of
    the transition. *)
Definition nextState (config : JsVal) (stepperState : StepperState)
    (currentStep targetStep : Z) (args : NavigationArgs) : Outcome StepperState :=
  let updatedSteps :=
    useStepNavigation.updateStepsStatus stepperState (statusUpdates args) in
  finalSteps <~ useStepNavigation.updateStepStates config updatedSteps currentStep
                  targetStep (targetStep >? currentStep);;
  progress <~ useStepNavigation.calculateProgress finalSteps
                (totalSteps (generalInfo stepperState));;
  Returned
    (mkStepperState
       (mkGeneralInfo
          (totalSteps (generalInfo stepperState))
          (ratio (targetStep + 1) (or_one (totalSteps (generalInfo stepperState))))
          (fst progress)
          (snd progress))
       finalSteps
       (obj_spread (generalState stepperState) (default [] (updateGeneralStates args)))
       (isLoadedFromLocalStorage stepperState)).

(** [config.saveLocalStorage] is truthy. *)
Definition persistence_enabled (config : JsVal) : bool :=
  truthy (opt_member config "saveLocalStorage").

(** The store after the blob of [state] was written under ["stepperState"],
    when persistence is enabled. *)
Definition persisted (config : JsVal) (state : StepperState) (ls : LocalStorage)
    : LocalStorage :=
  if persistence_enabled config then
    mkLocalStorage
      (<["stepperState" := stored_text (JSON_stringify (StepperState_value state))]>
         (items ls))
      (refusesWrites ls)
  else ls.

(** The store accepts the write a navigation makes (none when persistence
    is disabled). *)
Definition write_succeeds (config : JsVal) (ls : LocalStorage) : bool :=
  negb (persistence_enabled config && refusesWrites ls).

(** The world after a navigation whose [try] block threw [error]: nothing is
    committed, the error is logged, the busy flag is cleared. *)
Definition aborted (w : World) (ls : LocalStorage) (error : JsError) : World :=
  mkWorld (stepperState w) (currentStep w) false ls
          (console w ++ [ErrorInStepNavigation error]).

(** The world after a navigation that committed [state] and [targetStep]. *)
Definition committed (w : World) (ls : LocalStorage) (state : StepperState)
    (targetStep : Z) : World :=
  mkWorld state targetStep false ls (console w).

(** Every slot of the array holds an object: the array is a [StepState[]]
    without holes. *)
Definition dense_objects (a : JsArray) : bool :=
  forallb (fun slot => match slot with Some (JObj _) => true | _ => false end) a.

(** Every slot of the array is a hole or holds an object. *)
Definition objects_or_holes (a : JsArray) : Prop :=
  Forall (fun slot => match slot with
                      | Some (JObj _) | None => True
                      | Some _ => False
                      end) a.

(** The callback, if any, resolves whatever state it is given. *)
Definition resolves (callback : option StepStateCallback) : Prop :=
  match callback with
  | Some f => forall s, f s = Returned tt
  | None => True
  end.

(** The guard clauses of [goToStep] let the request through. *)
Definition goToStep_accepts (config : JsVal) (w : World) (nextStep : Z) : Prop :=
  0 <= nextStep < totalSteps (generalInfo (stepperState w))
  /\ nextStep <> currentStep w
  /\ (truthy (nullish_coalesce
                (useStepNavigation.config_path config ["validations"; "goToStep"; "canAccess"])
                (JBool true)) = false
      \/ nextStep < currentStep w
      \/ truthy (opt_member (arr_get (steps (stepperState w)) nextStep) "canAccess") = true).

(** The invariant of the aggregate root. *)
Definition length_invariant (s : StepperState) : Prop :=
  Z.of_nat (length (steps s)) = totalSteps (generalInfo s).

(** An entry [updateSteps] must refuse: a key of its [data] is not one of
    the four flags, or its [stepIndex] is outside [[0, steps.length)]. *)
Definition has_invalid_key (u : UpdateStepInput) : Prop :=
  exists key, In key (object_keys (data u)) /\ ~ In key useStepsActions.validKeys.

Definition index_out_of_range (state : StepperState) (u : UpdateStepInput) : Prop :=
  stepIndex u < 0 \/ stepIndex u >= Z.of_nat (length (steps state)).

Definition invalid_update (state : StepperState) (u : UpdateStepInput) : Prop :=
  has_invalid_key u \/ index_out_of_range state u.

(** The check [updateSteps] runs on each entry before it applies any. *)
Definition validate_update (state : StepperState) (update : UpdateStepInput)
    : Outcome unit :=
  let isValidData :=
    forallb (useStepsActions.includes useStepsActions.validKeys)
            (object_keys (data update)) in
  if negb isValidData then Thrown (Error (InvalidDataProvided (data update)))
  else if (stepIndex update <? 0)
          || (stepIndex update >=? Z.of_nat (length (steps state)))
  then Thrown (Error (InvalidStepIndex (stepIndex update)))
  else Returned tt.


(** The step at index [j] with every patch of the batch that is addressed to
    [j] spread over it, in the order of the batch. *)
Definition overlay (j : Z) (updates : list UpdateStepInput) (step : JsVal) : JsVal :=
  fold_left (fun v u => if stepIndex u =? j
                        then JObj (obj_spread (own_props v) (data u))
                        else v)
            updates step.

(** The number of steps whose [isCompleted] is truthy. *)
Definition completed_steps (a : JsArray) : nat :=
  length (List.filter
            (fun slot => truthy (opt_member (default JUndefined slot) "isCompleted"))
            a).

(** A number between 0 and 1. *)
Definition unit_interval (q : Q) : Prop := (0 <= q /\ q <= 1)%Q.

(** ** Sample data

    The state and the callback of the library's test suite
    ([mockStepperState], three steps of which the last is not accessible; a
    callback rejecting with [new Error("Test error")]). *)

Definition step_object (name : string)
    (canAccess canEdit isOptional isCompleted : bool) : JsVal :=
  JObj [("name", JStr name);
        ("canAccess", JBool canAccess);
        ("canEdit", JBool canEdit);
        ("isOptional", JBool isOptional);
        ("isCompleted", JBool isCompleted)].

Definition mockStepperState : StepperState :=
  mkStepperState
    (mkGeneralInfo 3 0 0 (33 # 100))
    [Some (step_object "Step 1" true true false false);
     Some (step_object "Step 2" true true false false);
     Some (step_object "Step 3" false false false false)]
    []
    None.

(** The [StepConfig[]] of the test suite: three steps with a name and a
    component (a React element, opaque here) and no flag set. *)
Definition mockSteps : list JsObject :=
  [[("name", JStr "Step 1"); ("component", JObj [])];
   [("name", JStr "Step 2"); ("component", JObj [])];
   [("name", JStr "Step 3"); ("component", JObj [])]].

(** A configuration with nothing but [saveLocalStorage]. *)
Definition config_with (saveLocalStorage : bool) : JsVal :=
  JObj [("steps", JArr []); ("saveLocalStorage", JBool saveLocalStorage)].

(** A freshly rendered provider showing [state] at step [index]: not busy,
    an empty store that accepts writes, nothing logged. *)
Definition world_at (state : StepperState) (index : Z) : World :=
  mkWorld state index false (mkLocalStorage ∅ false) [].

Definition rejecting_callback : StepStateCallback :=
  fun _ => Thrown (Error (Literal "Test error")).

Definition resolving_callback : StepStateCallback :=
  fun _ => Returned tt.

(** The state [onNext] commits on the three steps of the test suite when it
    is given a status update for index 5: a sparse step list. *)
Definition sparse_state : StepperState :=
  stepperState
    (useStepNavigation.onNext (config_with true)
       (mkNavigationArgs None [mkUpdateStepInput 5 [("isCompleted", JBool true)]] None)
       (world_at mockStepperState 0)).2.

(** * Lemmas on arrays and objects *)

Lemma own_property_obj_set_same k v o :
  own_property k (obj_set k v o) = Some v.
Proof.
  induction o as [|[k' v'] o IH]; simpl.
  - by rewrite String.eqb_refl.
  - destruct (String.eqb k' k) eqn:E; simpl.
    + by rewrite String.eqb_refl.
    + by rewrite E.
Qed.

Lemma own_property_obj_set_other k k' v o :
  k <> k' -> own_property k' (obj_set k v o) = own_property k' o.
Proof.
  intros Hne. induction o as [|[k0 v0] o IH]; simpl.
  - destruct (String.eqb k k') eqn:E; [|done].
    apply String.eqb_eq in E. contradiction.
  - destruct (String.eqb k0 k) eqn:E; simpl.
    + apply String.eqb_eq in E. subst k0.
      destruct (String.eqb k k') eqn:E'; [|done].
      apply String.eqb_eq in E'. contradiction.
    + by rewrite IH.
Qed.

Lemma obj_get_obj_set_same k v o : obj_get (obj_set k v o) k = v.
Proof. unfold obj_get. by rewrite own_property_obj_set_same. Qed.

Lemma obj_get_obj_set_other k k' v o :
  k <> k' -> obj_get (obj_set k v o) k' = obj_get o k'.
Proof. intros. unfold obj_get. by rewrite own_property_obj_set_other. Qed.

Lemma obj_get_cons k v o k' :
  obj_get ((k, v) :: o) k' = if String.eqb k k' then v else obj_get o k'.
Proof. unfold obj_get. simpl. by destruct (String.eqb k k'). Qed.

Lemma length_arr_spread a : length (arr_spread a) = length a.
Proof. unfold arr_spread. by rewrite length_map. Qed.

Lemma arr_set_in_range a i v :
  0 <= i < Z.of_nat (length a) -> length (arr_set a i v) = length a.
Proof.
  intros [H0 H1]. unfold arr_set.
  destruct (Z.ltb_spec i 0); [lia|].
  destruct (Nat.ltb_spec (Z.to_nat i) (length a)); [|lia].
  by rewrite length_insert.
Qed.

Lemma arr_set_negative a i v : i < 0 -> arr_set a i v = a.
Proof. intros. unfold arr_set. destruct (Z.ltb_spec i 0); [done|lia]. Qed.

Lemma arr_set_extends a i v :
  Z.of_nat (length a) <= i -> Z.of_nat (length (arr_set a i v)) = i + 1.
Proof.
  intros. unfold arr_set.
  destruct (Z.ltb_spec i 0); [lia|].
  destruct (Nat.ltb_spec (Z.to_nat i) (length a)); [lia|].
  rewrite !length_app, length_replicate. simpl. lia.
Qed.

Lemma objects_or_holes_arr_set a i o :
  objects_or_holes a -> objects_or_holes (arr_set a i (JObj o)).
Proof.
  unfold objects_or_holes, arr_set. intros Ha.
  destruct (i <? 0); [done|].
  destruct (Z.to_nat i <? length a)%nat.
  - apply Forall_insert; done.
  - apply Forall_app. split; [done|].
    apply Forall_app. split.
    + apply Forall_replicate. done.
    + by constructor.
Qed.

Lemma dense_objects_spread a :
  dense_objects a = true -> objects_or_holes (arr_spread a).
Proof.
  unfold dense_objects, objects_or_holes, arr_spread.
  induction a as [|slot a IH]; simpl; [constructor|].
  intros H. apply andb_true_iff in H as [Hs Ha].
  constructor; [|by apply IH].
  destruct slot as [[]|]; done.
Qed.

Lemma objects_or_holes_updateStepsStatus s updates :
  dense_objects (steps s) = true ->
  objects_or_holes (useStepNavigation.updateStepsStatus s updates).
Proof.
  intros Hs. unfold useStepNavigation.updateStepsStatus.
  generalize (dense_objects_spread _ Hs).
  generalize (arr_spread (steps s)) as acc.
  induction updates as [|u updates IH]; intros acc Hacc; simpl; [done|].
  apply IH. by apply objects_or_holes_arr_set.
Qed.

(** [map] over an array of objects and holes returns when the callback
    returns an object on every object, and keeps the length. *)
Lemma array_map_from_objects f index a :
  objects_or_holes a ->
  (forall i o, exists o', f i (JObj o) = Returned (JObj o')) ->
  exists a', array_map_from f index a = Returned a'
             /\ objects_or_holes a' /\ length a' = length a.
Proof.
  intros Ha Hf. revert index.
  induction Ha as [|slot a Hslot Ha IH]; intros index; simpl.
  - exists []. repeat split. constructor.
  - destruct (IH (S index)) as (a' & Ea & Ha' & Hlen).
    destruct slot as [v|].
    + destruct v; try done.
      destruct (Hf index props) as [o' Eo]. rewrite Eo. simpl. rewrite Ea. simpl.
      eexists. split; [done|]. split; [by constructor|]. simpl. by rewrite Hlen.
    + rewrite Ea. simpl.
      eexists. split; [done|]. split; [by constructor|]. simpl. by rewrite Hlen.
Qed.

Lemma array_map_from_length f index a a' :
  array_map_from f index a = Returned a' -> length a' = length a.
Proof.
  revert index a'. induction a as [|slot a IH]; intros index a'; simpl.
  - by intros [= <-].
  - destruct slot as [v|].
    + destruct (f index v); simpl; [|done].
      destruct (array_map_from f (S index) a) eqn:E; simpl; [|done].
      intros [= <-]. simpl. f_equal. eauto.
    + destruct (array_map_from f (S index) a) eqn:E; simpl; [|done].
      intros [= <-]. simpl. f_equal. eauto.
Qed.

(** What [map] leaves at each index. *)
Lemma array_map_from_lookup f index a a' n :
  array_map_from f index a = Returned a' ->
  match a !! n with
  | Some (Some v) => exists v', f (index + n)%nat v = Returned v' /\ a' !! n = Some (Some v')
  | Some None => a' !! n = Some None
  | None => a' !! n = None
  end.
Proof.
  revert index a' n. induction a as [|slot a IH]; intros index a' n; simpl.
  - intros [= <-]. done.
  - destruct slot as [v|].
    + destruct (f index v) as [v'|] eqn:Ev; simpl; [|done].
      destruct (array_map_from f (S index) a) as [rest|] eqn:E; simpl; [|done].
      intros [= <-]. destruct n as [|n]; simpl.
      * exists v'. by rewrite Nat.add_0_r.
      * specialize (IH _ _ n E). by rewrite Nat.add_succ_r.
    + destruct (array_map_from f (S index) a) as [rest|] eqn:E; simpl; [|done].
      intros [= <-]. destruct n as [|n]; simpl; [done|].
      specialize (IH _ _ n E). by rewrite Nat.add_succ_r.
Qed.

Lemma array_filter_objects keep a :
  objects_or_holes a ->
  (forall o, exists b, keep (JObj o) = Returned b) ->
  exists kept, array_filter keep a = Returned kept.
Proof.
  intros Ha Hk. induction Ha as [|slot a Hslot Ha [kept IH]]; simpl; [by eexists|].
  destruct slot as [v|]; [|by eexists].
  destruct v; try done.
  destruct (Hk props) as [b Eb]. rewrite Eb. simpl. rewrite IH. simpl. by eexists.
Qed.

Lemma with_flags_object step a b c d :
  useStepNavigation.with_flags step (Returned a) (Returned b) (Returned c) (Returned d)
  = Returned (JObj (obj_set "canEdit" d
                     (obj_set "isOptional" c
                       (obj_set "isCompleted" b
                         (obj_set "canAccess" a (own_props step)))))).
Proof. reflexivity. Qed.

Lemma nullish_or_member a o k :
  nullish_or a (member (JObj o) k) = Returned (nullish_coalesce a (obj_get o k)).
Proof. unfold nullish_or, nullish_coalesce. by destruct (nullish a). Qed.

Lemma nullish_or_value a v :
  nullish_or a (Returned v) = Returned (nullish_coalesce a v).
Proof. unfold nullish_or, nullish_coalesce. by destruct (nullish a). Qed.

Lemma updateStepStates_objects config a c t forward :
  objects_or_holes a ->
  exists a', useStepNavigation.updateStepStates config a c t forward = Returned a'
             /\ objects_or_holes a' /\ length a' = length a.
Proof.
  intros Ha. apply array_map_from_objects; [done|].
  intros i o. cbv beta zeta.
  repeat match goal with
         | |- context [if ?b then _ else _] => destruct b
         end;
    rewrite ?nullish_or_member, ?nullish_or_value, ?with_flags_object; by eexists.
Qed.

Lemma calculateProgress_objects a n :
  objects_or_holes a ->
  exists p, useStepNavigation.calculateProgress a n = Returned p.
Proof.
  intros Ha. unfold useStepNavigation.calculateProgress.
  destruct (array_filter_objects
              (fun item => x <~ member item "isCompleted";; Returned (strict_true x)) a Ha)
    as [k1 E1]; [intros o; by eexists|].
  destruct (array_filter_objects
              (fun item => x <~ member item "canAccess";; Returned (strict_true x)) a Ha)
    as [k2 E2]; [intros o; by eexists|].
  rewrite E1. simpl. rewrite E2. simpl. by eexists.
Qed.

(** On a state whose steps are all objects the transition is computed
    without an exception, whatever the patches and the configuration. *)
Lemma nextState_returns config s c t args :
  dense_objects (steps s) = true ->
  exists s', nextState config s c t args = Returned s'.
Proof.
  intros Hs. unfold nextState.
  destruct (updateStepStates_objects config
              (useStepNavigation.updateStepsStatus s (statusUpdates args))
              c t (t >? c)) as (a' & Ea & Ha' & _).
  { by apply objects_or_holes_updateStepsStatus. }
  rewrite Ea. simpl.
  destruct (calculateProgress_objects a' (totalSteps (generalInfo s)) Ha') as [p Ep].
  rewrite Ep. simpl. by eexists.
Qed.

(** The transition leaves [totalSteps] alone and sets [currentProgress] from
    the target. *)
Lemma nextState_generalInfo config s c t args s' :
  nextState config s c t args = Returned s' ->
  totalSteps (generalInfo s') = totalSteps (generalInfo s)
  /\ currentProgress (generalInfo s')
     = ratio (t + 1) (or_one (totalSteps (generalInfo s))).
Proof.
  unfold nextState.
  destruct (useStepNavigation.updateStepStates _ _ _ _ _); simpl; [|done].
  destruct (useStepNavigation.calculateProgress _ _); simpl; [|done].
  by intros [= <-].
Qed.

(** ** The shape of a navigation *)

(** [executeStepNavigation] always returns normally.  It ends in one of
    three worlds: aborted before the write (the transition or the write
    threw), aborted after the write (the callback rejected), or committed. *)
Lemma executeStepNavigation_cases config t args w :
  useStepNavigation.executeStepNavigation config t args w =
  (Returned tt,
   match nextState config (stepperState w) (currentStep w) t args with
   | Thrown e => aborted w (localStorage w) e
   | Returned s =>
       if write_succeeds config (localStorage w) then
         match useStepNavigation.await_callback (onCompleteStep args) s w with
         | (Thrown e, _) => aborted w (persisted config s (localStorage w)) e
         | (Returned _, _) => committed w (persisted config s (localStorage w)) s t
         end
       else aborted w (localStorage w) QuotaExceededError
   end).
Proof.
  unfold useStepNavigation.executeStepNavigation, nextState.
  unfold try_finally, try_catch, bind, setLoading, lift; simpl.
  destruct (useStepNavigation.updateStepStates _ _ _ _ _) as [finalSteps|e]; simpl;
    [|done].
  destruct (useStepNavigation.calculateProgress _ _) as [progress|e]; simpl; [|done].
  unfold useStepNavigation.saveToLocalStorage, write_succeeds, persisted,
    persistence_enabled.
  destruct (truthy (opt_member config "saveLocalStorage")); simpl.
  - unfold localStorage_setItem, with_localStorage; simpl.
    destruct (refusesWrites (localStorage w)); simpl; [done|].
    unfold useStepNavigation.await_callback, lift, ret.
    destruct (onCompleteStep args) as [f|]; [|done].
    by destruct (f _).
  - unfold useStepNavigation.await_callback, lift, ret.
    destruct (onCompleteStep args) as [f|]; [|done].
    by destruct (f _).
Qed.

Lemma onNext_accepted config args w :
  currentStep w < totalSteps (generalInfo (stepperState w)) - 1 ->
  useStepNavigation.onNext config args w
  = useStepNavigation.executeStepNavigation config (currentStep w + 1) args w.
Proof.
  intros H. unfold useStepNavigation.onNext.
  destruct (Z.geb_spec (currentStep w) (totalSteps (generalInfo (stepperState w)) - 1));
    [lia|done].
Qed.

Lemma onPrev_accepted config args w :
  currentStep w <> 0 ->
  useStepNavigation.onPrev config args w
  = useStepNavigation.executeStepNavigation config (currentStep w - 1) args w.
Proof.
  intros H. unfold useStepNavigation.onPrev.
  destruct (Z.eqb_spec (currentStep w) 0); [lia|done].
Qed.

Lemma goToStep_accepted config nextStep args w :
  goToStep_accepts config w nextStep ->
  useStepNavigation.goToStep config nextStep args w
  = useStepNavigation.executeStepNavigation config nextStep args w.
Proof.
  intros (Hrange & Hne & Hguard). unfold useStepNavigation.goToStep.
  destruct (Z.ltb_spec nextStep 0); [lia|].
  destruct (Z.geb_spec nextStep (totalSteps (generalInfo (stepperState w)))); [lia|].
  cbn [orb]. destruct (Z.eqb_spec nextStep (currentStep w)); [lia|].
  destruct Hguard as [Hv|[Hlt|Hacc]].
  - by rewrite Hv.
  - destruct (Z.gtb_spec nextStep (currentStep w)); [lia|].
    by rewrite andb_false_r.
  - rewrite Hacc. cbn [negb]. by rewrite andb_false_r.
Qed.

(** A navigation that commits: the steps are objects, the store takes the
    write and the callback resolves. *)
Lemma executeStepNavigation_commits config t args w :
  dense_objects (steps (stepperState w)) = true ->
  write_succeeds config (localStorage w) = true ->
  resolves (onCompleteStep args) ->
  exists s,
    nextState config (stepperState w) (currentStep w) t args = Returned s
    /\ useStepNavigation.executeStepNavigation config t args w
       = (Returned tt, committed w (persisted config s (localStorage w)) s t).
Proof.
  intros Hd Hw Hr.
  destruct (nextState_returns config (stepperState w) (currentStep w) t args Hd)
    as [s Es].
  exists s. split; [done|].
  rewrite executeStepNavigation_cases, Es, Hw.
  unfold useStepNavigation.await_callback, resolves in *.
  destruct (onCompleteStep args) as [f|]; [|done].
  unfold lift. by rewrite Hr.
Qed.

(** A navigation to another index moves the active index only by
    committing. *)
Lemma executeStepNavigation_moved config t args w :
  t <> currentStep w ->
  currentStep (useStepNavigation.executeStepNavigation config t args w).2 = t ->
  exists s,
    nextState config (stepperState w) (currentStep w) t args = Returned s
    /\ stepperState (useStepNavigation.executeStepNavigation config t args w).2 = s.
Proof.
  intros Hne. rewrite executeStepNavigation_cases. simpl.
  destruct (nextState _ _ _ _ _) as [s|e]; simpl; [|congruence].
  destruct (write_succeeds _ _); simpl; [|congruence].
  destruct (useStepNavigation.await_callback _ _ _) as [[|e] w']; simpl;
    [|congruence].
  intros _. by exists s.
Qed.

Lemma or_one_max n : 0 <= n -> or_one n = Z.max n 1.
Proof. intros. unfold or_one. destruct (Z.eqb_spec n 0); lia. Qed.

(** ** The scenarios of the specification *)

(** Three steps, no persistence, at index 0: [onNext()] moves to index 1,
    completes step 0 and makes [completedProgress] 1/3. *)
Example scenario_onNext :
  let w' := (useStepNavigation.onNext (config_with false) no_args
               (world_at mockStepperState 0)).2 in
  currentStep w' = 1
  /\ opt_member (arr_get (steps (stepperState w')) 0) "isCompleted" = JBool true
  /\ completedProgress (generalInfo (stepperState w')) = 1 # 3.
Proof. repeat split. Qed.

(** Three steps, validation enabled, step 2 not accessible, at index 0:
    [goToStep(2)] logs the warning and changes nothing else. *)
Example scenario_goToStep_blocked :
  let w := world_at mockStepperState 0 in
  useStepNavigation.goToStep (config_with false) 2 no_args w
  = (Returned tt,
     mkWorld (stepperState w) 0 false (localStorage w) [WarnNotAccessible 2]).
Proof. reflexivity. Qed.

(** At index 0 [onPrev()] logs the warning and changes nothing else. *)
Example scenario_onPrev_on_first_step :
  let w := world_at mockStepperState 0 in
  useStepNavigation.onPrev (config_with false) no_args w
  = (Returned tt, mkWorld (stepperState w) 0 false (localStorage w) [WarnFirstStep]).
Proof. reflexivity. Qed.

(** * The navigation engine *)

(** C7.  For every target index [t] with [t < 0] or [t >= totalSteps],
    [goToStep(t)] rejects with the error "The step t does not exist." and
    leaves the whole world as it was: the stepper state, the active index,
    the busy flag, the persisted blob and the console. *)
Theorem goToStep_out_of_range config nextStep args w :
  nextStep < 0 \/ nextStep >= totalSteps (generalInfo (stepperState w)) ->
  useStepNavigation.goToStep config nextStep args w
  = (Thrown (Error (StepDoesNotExist nextStep)), w).
Proof.
  intros H. unfold useStepNavigation.goToStep.
  destruct (Z.ltb_spec nextStep 0); [done|].
  destruct (Z.geb_spec nextStep (totalSteps (generalInfo (stepperState w))));
    [done|lia].
Qed.

Lemma goToStep_out_of_range_witness :
  (5 < 0 \/ 5 >= totalSteps (generalInfo (stepperState (world_at mockStepperState 0))))
  /\ useStepNavigation.goToStep (config_with true) 5 no_args (world_at mockStepperState 0)
     = (Thrown (Error (StepDoesNotExist 5)), world_at mockStepperState 0).
Proof.
  split.
  - right. simpl. lia.
  - apply (goToStep_out_of_range (config_with true) 5 no_args
             (world_at mockStepperState 0)).
    right. simpl. lia.
Defined.

(** C10.  For every in-range target [t] below the active index, [goToStep(t)]
    runs the navigation to [t]: nothing in the configuration (the
    [validations.goToStep.canAccess] setting included) and nothing in the
    state (the target's [canAccess] flag included) can block it.  On steps
    that are objects, with a store that takes the write and a callback that
    resolves, the active index becomes [t]. *)
Theorem goToStep_backward_is_not_validated config nextStep args w :
  0 <= nextStep < totalSteps (generalInfo (stepperState w)) ->
  nextStep < currentStep w ->
  useStepNavigation.goToStep config nextStep args w
  = useStepNavigation.executeStepNavigation config nextStep args w
  /\ (dense_objects (steps (stepperState w)) = true ->
      write_succeeds config (localStorage w) = true ->
      resolves (onCompleteStep args) ->
      currentStep (useStepNavigation.goToStep config nextStep args w).2 = nextStep).
Proof.
  intros Hrange Hlt.
  assert (Hacc : goToStep_accepts config w nextStep).
  { split; [done|]. split; [lia|]. right. by left. }
  rewrite (goToStep_accepted _ _ _ _ Hacc). split; [done|].
  intros Hd Hw Hr.
  destruct (executeStepNavigation_commits config nextStep args w Hd Hw Hr)
    as (s & _ & ->).
  done.
Qed.

Lemma goToStep_backward_is_not_validated_witness :
  let config :=
    JObj [("validations", JObj [("goToStep", JObj [("canAccess", JBool true)])])] in
  let state :=
    mkStepperState
      (mkGeneralInfo 2 1 (1 # 2) (1 # 2))
      [Some (step_object "Step 1" false true false true);
       Some (step_object "Step 2" true true false false)]
      [] None in
  let w := world_at state 1 in
  (0 <= 0 < totalSteps (generalInfo (stepperState w)))
  /\ 0 < currentStep w
  /\ useStepNavigation.goToStep config 0 no_args w
     = useStepNavigation.executeStepNavigation config 0 no_args w
  /\ currentStep (useStepNavigation.goToStep config 0 no_args w).2 = 0.
Proof.
  intros config state w.
  assert (Hrange : 0 <= 0 < totalSteps (generalInfo (stepperState w))) by (simpl; lia).
  assert (Hlt : 0 < currentStep w) by (simpl; lia).
  destruct (goToStep_backward_is_not_validated config 0 no_args w Hrange Hlt)
    as [Heq Hcommit].
  split; [exact Hrange|]. split; [exact Hlt|]. split; [exact Heq|].
  apply Hcommit; reflexivity.
Defined.

(** A forward jump, by contrast, is checked: with the validation on (the
    default) and a target that is not accessible, [goToStep] logs the
    warning and does nothing else. *)
Lemma goToStep_forward_is_validated config nextStep args w :
  currentStep w < nextStep < totalSteps (generalInfo (stepperState w)) ->
  0 <= nextStep ->
  truthy (nullish_coalesce
            (useStepNavigation.config_path config ["validations"; "goToStep"; "canAccess"])
            (JBool true)) = true ->
  truthy (opt_member (arr_get (steps (stepperState w)) nextStep) "canAccess") = false ->
  useStepNavigation.goToStep config nextStep args w
  = (Returned tt,
     mkWorld (stepperState w) (currentStep w) (loading w) (localStorage w)
             (console w ++ [WarnNotAccessible nextStep])).
Proof.
  intros Hrange H0 Hv Hacc. unfold useStepNavigation.goToStep.
  destruct (Z.ltb_spec nextStep 0); [lia|].
  destruct (Z.geb_spec nextStep (totalSteps (generalInfo (stepperState w)))); [lia|].
  cbn [orb]. destruct (Z.eqb_spec nextStep (currentStep w)); [lia|].
  rewrite Hv, Hacc.
  destruct (Z.gtb_spec nextStep (currentStep w)); [done|lia].
Qed.

(** C3.  For every accepted navigation to target index [t] (a call of
    [onNext], [onPrev] or [goToStep] that passes the guard clauses and moves
    the active index to [t]) on a state with [totalSteps = N], the resulting
    state's [currentProgress] is [(t+1)/max(N,1)].  The index does move
    whenever the steps are objects, the store takes the write and the
    callback resolves. *)
Theorem currentProgress_after_navigation config args w :
  let N := totalSteps (generalInfo (stepperState w)) in
  let c := currentStep w in
  let progress_is (t : Z) (r : Outcome unit * World) :=
    (currentStep r.2 = t ->
     (currentProgress (generalInfo (stepperState r.2)) == ratio (t + 1) (Z.max N 1))%Q)
    /\ (dense_objects (steps (stepperState w)) = true ->
        write_succeeds config (localStorage w) = true ->
        resolves (onCompleteStep args) ->
        currentStep r.2 = t) in
  0 <= N ->
  (c < N - 1 -> progress_is (c + 1) (useStepNavigation.onNext config args w))
  /\ (c <> 0 -> progress_is (c - 1) (useStepNavigation.onPrev config args w))
  /\ (forall t, goToStep_accepts config w t ->
                progress_is t (useStepNavigation.goToStep config t args w)).
Proof.
  intros N c progress_is HN.
  assert (Hexec : forall t, t <> c ->
            progress_is t (useStepNavigation.executeStepNavigation config t args w)).
  { intros t Hne. split.
    - intros Hmoved.
      destruct (executeStepNavigation_moved config t args w Hne Hmoved)
        as (s & Es & ->).
      destruct (nextState_generalInfo _ _ _ _ _ _ Es) as [_ ->].
      fold N. by rewrite (or_one_max N HN).
    - intros Hd Hw Hr.
      destruct (executeStepNavigation_commits config t args w Hd Hw Hr)
        as (s & _ & ->).
      done. }
  split; [|split].
  - intros Hc. rewrite onNext_accepted by done. apply Hexec. subst c. lia.
  - intros Hc. rewrite onPrev_accepted by done. apply Hexec. subst c. lia.
  - intros t Hacc. rewrite goToStep_accepted by done. apply Hexec.
    by destruct Hacc as (_ & Hne & _).
Qed.

Lemma currentProgress_after_navigation_witness :
  let args := mkNavigationArgs (Some resolving_callback) [] None in
  let w := world_at mockStepperState 0 in
  let w' := (useStepNavigation.onNext (config_with false) args w).2 in
  0 <= totalSteps (generalInfo (stepperState w))
  /\ currentStep w < totalSteps (generalInfo (stepperState w)) - 1
  /\ currentStep w' = 1
  /\ (currentProgress (generalInfo (stepperState w')) == 2 # 3)%Q.
Proof.
  intros args w w'.
  assert (HN : 0 <= totalSteps (generalInfo (stepperState w))) by (simpl; lia).
  assert (Hc : currentStep w < totalSteps (generalInfo (stepperState w)) - 1)
    by (simpl; lia).
  destruct (currentProgress_after_navigation (config_with false) args w HN)
    as [Hnext _].
  destruct (Hnext Hc) as [Hprogress Hmoves].
  split; [exact HN|]. split; [exact Hc|]. split; [reflexivity|].
  exact (Hprogress eq_refl).
Defined.

(** C1, as stated, fails: on the three steps of the test suite, [onNext]
    from index 0 with a callback that rejects computes the state for index 1
    and hands it to the callback, then commits neither that state nor the
    index. *)
Lemma rejected_callback_commits_nothing :
  let args := mkNavigationArgs (Some rejecting_callback) [] None in
  let w := world_at mockStepperState 0 in
  let w' := (useStepNavigation.onNext (config_with false) args w).2 in
  currentStep w < totalSteps (generalInfo (stepperState w)) - 1
  /\ (exists s, nextState (config_with false) mockStepperState 0 1 args = Returned s
                /\ stepperState w' <> s)
  /\ currentStep w' <> 1
  /\ stepperState w' = mockStepperState
  /\ currentStep w' = 0.
Proof.
  intros args w w'. split; [simpl; lia|]. split.
  - eexists. split; [vm_compute; reflexivity|]. vm_compute. discriminate.
  - split; [vm_compute; discriminate|]. split; reflexivity.
Qed.

(** C1, amended.  For every navigation accepted past the guard clauses
    ([onNext], [onPrev] or [goToStep]) whose [onCompleteStep] callback
    rejects, the call still returns normally with the busy flag cleared and
    exactly one error logged, and the computed transition is dropped: the
    stepper state and the active index are the ones from before the call.
    On steps that are objects and a store that takes the write, the logged
    error is the callback's rejection and the blob of the computed state
    has already been persisted (when persistence is enabled). *)
Theorem rejected_callback_is_logged_and_not_committed config args w f e :
  onCompleteStep args = Some f ->
  let dropped (t : Z) (r : Outcome unit * World) :=
    (* the callback rejects the state it is handed *)
    (forall s, nextState config (stepperState w) (currentStep w) t args = Returned s ->
               f s = Thrown e) ->
    r.1 = Returned tt
    /\ loading r.2 = false
    /\ stepperState r.2 = stepperState w
    /\ currentStep r.2 = currentStep w
    /\ exists error,
         console r.2 = (console w ++ [ErrorInStepNavigation error])%list
         /\ (dense_objects (steps (stepperState w)) = true ->
             write_succeeds config (localStorage w) = true ->
             error = e
             /\ exists s,
                  nextState config (stepperState w) (currentStep w) t args = Returned s
                  /\ localStorage r.2 = persisted config s (localStorage w)) in
  (currentStep w < totalSteps (generalInfo (stepperState w)) - 1 ->
   dropped (currentStep w + 1) (useStepNavigation.onNext config args w))
  /\ (currentStep w <> 0 ->
      dropped (currentStep w - 1) (useStepNavigation.onPrev config args w))
  /\ (forall t, goToStep_accepts config w t ->
                dropped t (useStepNavigation.goToStep config t args w)).
Proof.
  intros Hf dropped.
  assert (Hexec : forall t,
            dropped t (useStepNavigation.executeStepNavigation config t args w)).
  { intros t. unfold dropped. rewrite executeStepNavigation_cases. simpl.
    destruct (nextState config (stepperState w) (currentStep w) t args) as [s|e0] eqn:Es;
      intros Hrej.
    - destruct (write_succeeds config (localStorage w)) eqn:Ew.
      + unfold useStepNavigation.await_callback. rewrite Hf. unfold lift.
        rewrite (Hrej s eq_refl). simpl. repeat (split; [done|]).
        exists e. split; [done|]. intros _ _. split; [done|]. by exists s.
      + simpl. repeat (split; [done|]).
        exists QuotaExceededError. split; [done|]. intros _ [=].
    - simpl. repeat (split; [done|]).
      exists e0. split; [done|]. intros Hd _.
      destruct (nextState_returns config (stepperState w) (currentStep w) t args Hd)
        as [s Es'].
      congruence. }
  split; [|split].
  - intros Hc. rewrite onNext_accepted by done. apply Hexec.
  - intros Hc. rewrite onPrev_accepted by done. apply Hexec.
  - intros t Hacc. rewrite goToStep_accepted by done. apply Hexec.
Qed.

Lemma rejected_callback_is_logged_and_not_committed_witness :
  let args := mkNavigationArgs (Some rejecting_callback) [] None in
  let w := world_at mockStepperState 0 in
  let r := useStepNavigation.onNext (config_with true) args w in
  onCompleteStep args = Some rejecting_callback
  /\ (forall s, rejecting_callback s = Thrown (Error (Literal "Test error")))
  /\ currentStep w < totalSteps (generalInfo (stepperState w)) - 1
  /\ r.1 = Returned tt
  /\ loading r.2 = false
  /\ stepperState r.2 = stepperState w
  /\ currentStep r.2 = currentStep w.
Proof.
  intros args w r.
  assert (Hf : onCompleteStep args = Some rejecting_callback) by reflexivity.
  assert (Hrej : forall s, rejecting_callback s = Thrown (Error (Literal "Test error")))
    by (intros s; reflexivity).
  assert (Hc : currentStep w < totalSteps (generalInfo (stepperState w)) - 1)
    by (simpl; lia).
  destruct (rejected_callback_is_logged_and_not_committed
              (config_with true) args w rejecting_callback
              (Error (Literal "Test error")) Hf) as [Hnext _].
  destruct (Hnext Hc (fun s _ => Hrej s)) as (H1 & H2 & H3 & H4 & _).
  repeat (split; [assumption|]). assumption.
Defined.

(** On the last step [onNext] never touches the stepper state, the active
    index or the busy flag, whatever its arguments. *)
Lemma onNext_on_last_step_keeps_state config args w :
  currentStep w >= totalSteps (generalInfo (stepperState w)) - 1 ->
  let w' := (useStepNavigation.onNext config args w).2 in
  stepperState w' = stepperState w
  /\ currentStep w' = currentStep w
  /\ loading w' = loading w.
Proof.
  intros H. unfold useStepNavigation.onNext.
  destruct (Z.geb_spec (currentStep w) (totalSteps (generalInfo (stepperState w)) - 1));
    [|lia].
  unfold bind, ret, localStorage_removeItem, with_localStorage,
    useStepNavigation.await_callback, lift, console_call.
  destruct (truthy (opt_member config "saveLocalStorage")); simpl;
    destruct (onCompleteStep args) as [f|]; simpl; try done;
    by destruct (f (stepperState w)).
Qed.

(** On the last step [onNext] logs "You are already on the last step." when
    it was given no callback or one that resolves. *)
Lemma onNext_on_last_step_warns config args w :
  currentStep w >= totalSteps (generalInfo (stepperState w)) - 1 ->
  resolves (onCompleteStep args) ->
  let r := useStepNavigation.onNext config args w in
  r.1 = Returned tt /\ console r.2 = (console w ++ [WarnLastStep])%list.
Proof.
  intros H Hr. unfold useStepNavigation.onNext.
  destruct (Z.geb_spec (currentStep w) (totalSteps (generalInfo (stepperState w)) - 1));
    [|lia].
  unfold bind, ret, localStorage_removeItem, with_localStorage,
    useStepNavigation.await_callback, lift, console_call, resolves in *.
  destruct (truthy (opt_member config "saveLocalStorage")); simpl;
    destruct (onCompleteStep args) as [f|]; simpl; try done;
    by rewrite Hr.
Qed.

(** On the last step a rejection of the callback is not caught: it leaves
    [onNext] as an exception, before the warning is reached. *)
Lemma onNext_on_last_step_propagates_rejection config args w f e :
  currentStep w >= totalSteps (generalInfo (stepperState w)) - 1 ->
  onCompleteStep args = Some f ->
  f (stepperState w) = Thrown e ->
  let r := useStepNavigation.onNext config args w in
  r.1 = Thrown e /\ console r.2 = console w.
Proof.
  intros H Hf He. unfold useStepNavigation.onNext.
  destruct (Z.geb_spec (currentStep w) (totalSteps (generalInfo (stepperState w)) - 1));
    [|lia].
  unfold bind, ret, localStorage_removeItem, with_localStorage,
    useStepNavigation.await_callback, lift, console_call.
  rewrite Hf.
  destruct (truthy (opt_member config "saveLocalStorage")); simpl; by rewrite He.
Qed.

(** C8, the failing input.  On the last of three steps, [onNext] with a
    callback that rejects: the rejection leaves [onNext] as an exception and
    the console stays empty, no warning is logged.  (The state and the index
    are untouched, as claimed.) *)
Lemma onNext_on_last_step_with_rejecting_callback :
  useStepNavigation.onNext (config_with false)
    (mkNavigationArgs (Some rejecting_callback) [] None)
    (world_at mockStepperState 2)
  = (Thrown (Error (Literal "Test error")), world_at mockStepperState 2).
Proof. reflexivity. Qed.

(** * The step actions *)

Lemma for_each_thrown {A} (f : A -> Outcome unit) (a : list A) e :
  for_each f a = Thrown e -> exists x, In x a /\ f x = Thrown e.
Proof.
  induction a as [|x a IH]; simpl; [done|].
  destruct (f x) as [[]|e'] eqn:Ex; simpl.
  - intros H. destruct (IH H) as (y & Hy & Ey). exists y. by split; [right|].
  - intros [= ->]. exists x. by split; [left|].
Qed.

Lemma for_each_returned {A} (f : A -> Outcome unit) (a : list A) :
  for_each f a = Returned tt -> forall x, In x a -> f x = Returned tt.
Proof.
  induction a as [|x a IH]; simpl; [done|].
  destruct (f x) as [[]|e'] eqn:Ex; simpl; [|done].
  intros H y [<-|Hy]; [done|]. by apply IH.
Qed.

Lemma includes_In keys key :
  useStepsActions.includes keys key = true <-> In key keys.
Proof.
  unfold useStepsActions.includes. rewrite existsb_exists. split.
  - intros (k & Hk & E). apply String.eqb_eq in E. by subst.
  - intros H. exists key. split; [done|]. apply String.eqb_refl.
Qed.

Lemma forallb_false_In {A} (f : A -> bool) (l : list A) :
  forallb f l = false -> exists x, In x l /\ f x = false.
Proof.
  induction l as [|x l IH]; simpl; [done|].
  destruct (f x) eqn:Ex; simpl.
  - intros H. destruct (IH H) as (y & Hy & Ey). exists y. by split; [right|].
  - intros _. exists x. by split; [left|].
Qed.

Lemma validate_update_thrown state u e :
  validate_update state u = Thrown e ->
  (e = Error (InvalidDataProvided (data u)) /\ has_invalid_key u)
  \/ (e = Error (InvalidStepIndex (stepIndex u)) /\ index_out_of_range state u).
Proof.
  unfold validate_update.
  destruct (forallb _ _) eqn:Ekeys; simpl.
  - destruct (Z.ltb_spec (stepIndex u) 0); simpl.
    + intros [= <-]. right. split; [done|]. by left.
    + destruct (Z.geb_spec (stepIndex u) (Z.of_nat (length (steps state)))); [|done].
      intros [= <-]. right. split; [done|]. right. lia.
  - intros [= <-]. left. split; [done|].
    apply forallb_false_In in Ekeys as (key & Hkey & E).
    exists key. split; [done|]. rewrite <- includes_In. by rewrite E.
Qed.

Lemma validate_update_returned state u :
  validate_update state u = Returned tt -> ~ invalid_update state u.
Proof.
  unfold validate_update.
  destruct (forallb _ _) eqn:Ekeys; simpl; [|done].
  destruct (Z.ltb_spec (stepIndex u) 0); simpl; [done|].
  destruct (Z.geb_spec (stepIndex u) (Z.of_nat (length (steps state)))); [done|].
  intros _ [(key & Hkey & Hbad)|[Hneg|Hge]]; [|lia|lia].
  rewrite forallb_forall in Ekeys. apply Hbad, includes_In. by apply Ekeys.
Qed.

(** C6.  For every batch passed to [updateSteps], if any entry has a [data]
    key outside [canAccess, canEdit, isOptional, isCompleted] or a
    [stepIndex] outside [[0, steps.length)], the call throws an error that
    names the offending [data] or the offending index of an entry of the
    batch, and nothing is modified: no step, nor any other part of the world
    (the state, the persisted blob, the console). *)
Theorem updateSteps_all_or_nothing config updates w :
  Exists (invalid_update (stepperState w)) updates ->
  exists e,
    useStepsActions.updateSteps config updates w = (Thrown e, w)
    /\ exists u,
         In u updates
         /\ ((e = Error (InvalidDataProvided (data u)) /\ has_invalid_key u)
             \/ (e = Error (InvalidStepIndex (stepIndex u))
                 /\ index_out_of_range (stepperState w) u)).
Proof.
  intros Hbad. unfold useStepsActions.updateSteps.
  change (for_each _ updates)
    with (for_each (validate_update (stepperState w)) updates).
  unfold bind, lift.
  destruct (for_each (validate_update (stepperState w)) updates) as [[]|e] eqn:E.
  - exfalso. apply Exists_exists in Hbad as (u & Hu & Hinv).
    apply (validate_update_returned (stepperState w) u); [|done].
    apply (for_each_returned _ _ E). by apply list_elem_of_In.
  - exists e. split; [done|].
    destruct (for_each_thrown _ _ _ E) as (u & Hu & Eu).
    exists u. split; [done|]. by apply validate_update_thrown.
Qed.

Lemma updateSteps_all_or_nothing_witness :
  let updates :=
    [mkUpdateStepInput 0 [("isCompleted", JBool true)];
     mkUpdateStepInput 1 [("invalidProperty", JBool true)]] in
  let w := world_at mockStepperState 0 in
  Exists (invalid_update (stepperState w)) updates
  /\ exists e, useStepsActions.updateSteps (config_with true) updates w = (Thrown e, w).
Proof.
  intros updates w.
  assert (Hbad : Exists (invalid_update (stepperState w)) updates).
  { apply Exists_cons_tl, Exists_cons_hd. left. exists "invalidProperty".
    split; [by left|].
    unfold useStepsActions.validKeys.
    intros [H|[H|[H|[H|[]]]]]; discriminate H. }
  split; [exact Hbad|].
  destruct (updateSteps_all_or_nothing (config_with true) updates w Hbad)
    as (e & He & _).
  exists e. exact He.
Defined.

(** C5, as stated, fails: after [setStepsInfo] on the three steps of the
    test suite the progress counters are not all zero, [canAccessProgress]
    being 1/3. *)
Lemma setStepsInfo_canAccessProgress_not_reset :
  let w' := (useStepsActions.setStepsInfo mockSteps (world_at mockStepperState 0)).2 in
  totalSteps (generalInfo (stepperState w')) = 3
  /\ (canAccessProgress (generalInfo (stepperState w')) == 1 # 3)%Q
  /\ ~ ((currentProgress (generalInfo (stepperState w')) == 0)%Q
        /\ (completedProgress (generalInfo (stepperState w')) == 0)%Q
        /\ (canAccessProgress (generalInfo (stepperState w')) == 0)%Q).
Proof.
  intros w'. split; [reflexivity|]. split; [reflexivity|].
  intros (_ & _ & H). vm_compute in H. discriminate H.
Qed.

(** C5, amended.  For every list of [N >= 0] step configurations passed to
    [setStepsInfo], the resulting state has [totalSteps = N] and [N] steps;
    [currentProgress] and [completedProgress] are reset to 0, while
    [canAccessProgress] is set to [1/N] (the share of the first step) when
    [N > 0] and to 0 when [N = 0]; each step keeps its [name] and has its
    flags at the defaults when the configuration does not set them
    ([canAccess] true for index 0 only, [canEdit], [isOptional] and
    [isCompleted] false), and at the configured boolean otherwise.  The
    shared payload is left as it was. *)
Theorem setStepsInfo_defaults (configs : list JsObject) (w : World) :
  let r := useStepsActions.setStepsInfo configs w in
  let s' := stepperState r.2 in
  let N := length configs in
  r.1 = Returned tt
  /\ totalSteps (generalInfo s') = Z.of_nat N
  /\ length (steps s') = N
  /\ currentProgress (generalInfo s') = 0%Q
  /\ completedProgress (generalInfo s') = 0%Q
  /\ canAccessProgress (generalInfo s')
     = (if Z.of_nat N >? 0 then ratio 1 (Z.of_nat N) else 0%Q)
  /\ generalState s' = generalState (stepperState w)
  /\ forall (i : nat) (cfg : JsObject),
       configs !! i = Some cfg ->
       exists o,
         steps s' !! i = Some (Some (JObj o))
         /\ obj_get o "name" = obj_get cfg "name"
         /\ (obj_get cfg "canAccess" = JUndefined ->
             obj_get o "canAccess" = JBool (Nat.eqb i 0))
         /\ (obj_get cfg "canEdit" = JUndefined -> obj_get o "canEdit" = JBool false)
         /\ (obj_get cfg "isOptional" = JUndefined -> obj_get o "isOptional" = JBool false)
         /\ (obj_get cfg "isCompleted" = JUndefined -> obj_get o "isCompleted" = JBool false)
         /\ forall flag b,
              In flag ["canAccess"; "canEdit"; "isOptional"; "isCompleted"] ->
              obj_get cfg flag = JBool b -> obj_get o flag = JBool b.
Proof.
  intros r s' N. subst r s' N. simpl.
  repeat (split; [done|]).
  split; [by rewrite length_imap|].
  repeat (split; [done|]).
  intros i cfg Hi.
  eexists. split.
  { rewrite list_lookup_imap, Hi. reflexivity. }
  rewrite !obj_get_cons. simpl.
  split; [done|].
  split. { intros ->. simpl. by destruct i. }
  split. { by intros ->. }
  split. { by intros ->. }
  split. { by intros ->. }
  intros flag b Hflag Hb.
  destruct Hflag as [<-|[<-|[<-|[<-|[]]]]];
    rewrite !obj_get_cons; simpl; rewrite Hb; by destruct b.
Qed.

Lemma setStepsInfo_defaults_witness :
  let s' := stepperState (useStepsActions.setStepsInfo mockSteps
                            (world_at mockStepperState 2)).2 in
  mockSteps !! 1%nat = Some [("name", JStr "Step 2"); ("component", JObj [])]
  /\ totalSteps (generalInfo s') = 3
  /\ canAccessProgress (generalInfo s') = ratio 1 3
  /\ exists o,
       steps s' !! 1%nat = Some (Some (JObj o))
       /\ obj_get o "name" = JStr "Step 2"
       /\ obj_get o "canAccess" = JBool false
       /\ obj_get o "canEdit" = JBool false.
Proof.
  intros s'.
  destruct (setStepsInfo_defaults mockSteps (world_at mockStepperState 2))
    as (_ & Htotal & _ & _ & _ & Haccess & _ & Hsteps).
  assert (Hcfg : mockSteps !! 1%nat
                 = Some [("name", JStr "Step 2"); ("component", JObj [])])
    by reflexivity.
  destruct (Hsteps 1%nat _ Hcfg) as (o & Ho & Hname & Hca & Hce & _).
  split; [exact Hcfg|]. split; [exact Htotal|]. split; [exact Haccess|].
  exists o. split; [exact Ho|]. split; [exact Hname|].
  split; [exact (Hca eq_refl)|exact (Hce eq_refl)].
Defined.

(** The older copy disagrees with the claim on the flags instead: the
    counters are all zero, but a step that sets neither [canAccess] nor
    [canEdit] gets both true, at every index. *)
Lemma Legacy_setStepsInfo_defaults (configs : list JsObject) (w : World) :
  let s' := stepperState (Legacy.setStepsInfo configs w).2 in
  generalInfo s' = mkGeneralInfo (Z.of_nat (length configs)) 0 0 0
  /\ forall (i : nat) (cfg : JsObject),
       configs !! i = Some cfg ->
       obj_get cfg "canAccess" = JUndefined ->
       obj_get cfg "canEdit" = JUndefined ->
       exists o,
         steps s' !! i = Some (Some (JObj o))
         /\ obj_get o "canAccess" = JBool true
         /\ obj_get o "canEdit" = JBool true.
Proof.
  intros s'. subst s'. simpl. split; [done|].
  intros i cfg Hi Ha He. eexists. split.
  { rewrite list_lookup_imap, Hi. simpl. reflexivity. }
  rewrite !obj_get_cons. simpl. by rewrite Ha, He.
Qed.

(** * The field overrides of a transition *)

Lemma array_map_from_returns f index a :
  (forall n v, a !! n = Some (Some v) -> exists v', f (index + n)%nat v = Returned v') ->
  exists a', array_map_from f index a = Returned a'.
Proof.
  revert index. induction a as [|slot a IH]; intros index Hf; simpl; [by eexists|].
  destruct (IH (S index)) as [rest Erest].
  { intros n v Hn. rewrite Nat.add_succ_l, <- Nat.add_succ_r. by apply Hf. }
  rewrite Erest. destruct slot as [v|]; simpl; [|by eexists].
  destruct (Hf 0%nat v eq_refl) as [v' Ev]. rewrite Nat.add_0_r in Ev.
  rewrite Ev. simpl. by eexists.
Qed.

(** C4, as stated, fails: [isCompleted] of the current step is not the only
    field with a default.  With nothing configured under [next], [onNext]
    from step 2 of the test suite's state turns the [canAccess] flag of the
    target, step 3, from false to true. *)
Lemma forward_navigation_grants_access_to_target :
  let config := config_with false in
  let w := world_at mockStepperState 1 in
  let w' := (useStepNavigation.onNext config no_args w).2 in
  useStepNavigation.config_path config ["next"; "nextStep"; "canAccess"] = JUndefined
  /\ currentStep w' = 2
  /\ opt_member (arr_get (steps (stepperState w)) 2) "canAccess" = JBool false
  /\ opt_member (arr_get (steps (stepperState w')) 2) "canAccess" = JBool true
  /\ opt_member (arr_get (steps (stepperState w')) 2) "canAccess"
     <> opt_member (arr_get (steps (stepperState w)) 2) "canAccess".
Proof.
  intros config w w'. repeat (split; [reflexivity|]). vm_compute. discriminate.
Qed.

(** C4, amended.  For every forward transition (target [t] above the current
    index [c]) and every configuration, on steps [c] and [t] that are
    objects: each of [canAccess], [isCompleted], [isOptional] and [canEdit]
    of step [c] is the value configured under [next.currentStep] if there is
    one, and of step [t] the value configured under [next.nextStep] if there
    is one; a field that is not configured keeps its value, with two
    exceptions: [isCompleted] of the current step becomes true, and
    [canAccess] of the target step becomes true. *)
Theorem forward_overrides config (steps : JsArray) c t oc ot :
  0 <= c < t ->
  steps !! Z.to_nat c = Some (Some (JObj oc)) ->
  steps !! Z.to_nat t = Some (Some (JObj ot)) ->
  let next_currentStep field :=
    useStepNavigation.config_path config ["next"; "currentStep"; field] in
  let next_nextStep field :=
    useStepNavigation.config_path config ["next"; "nextStep"; field] in
  exists final oc' ot',
    useStepNavigation.updateStepStates config steps c t true = Returned final
    /\ final !! Z.to_nat c = Some (Some (JObj oc'))
    /\ final !! Z.to_nat t = Some (Some (JObj ot'))
    /\ obj_get oc' "canAccess"
       = nullish_coalesce (next_currentStep "canAccess") (obj_get oc "canAccess")
    /\ obj_get oc' "isCompleted"
       = nullish_coalesce (next_currentStep "isCompleted") (JBool true)
    /\ obj_get oc' "isOptional"
       = nullish_coalesce (next_currentStep "isOptional") (obj_get oc "isOptional")
    /\ obj_get oc' "canEdit"
       = nullish_coalesce (next_currentStep "canEdit") (obj_get oc "canEdit")
    /\ obj_get ot' "canAccess"
       = nullish_coalesce (next_nextStep "canAccess") (JBool true)
    /\ obj_get ot' "isCompleted"
       = nullish_coalesce (next_nextStep "isCompleted") (obj_get ot "isCompleted")
    /\ obj_get ot' "isOptional"
       = nullish_coalesce (next_nextStep "isOptional") (obj_get ot "isOptional")
    /\ obj_get ot' "canEdit"
       = nullish_coalesce (next_nextStep "canEdit") (obj_get ot "canEdit").
Proof.
  intros Hct Hc Ht next_currentStep next_nextStep.
  unfold useStepNavigation.updateStepStates, array_map.
  match goal with
  | |- context [array_map_from ?f 0%nat steps] => set (callback := f)
  end.
  assert (Hcur : callback (Z.to_nat c) (JObj oc)
                 = Returned (JObj
                     (obj_set "canEdit"
                        (nullish_coalesce (next_currentStep "canEdit") (obj_get oc "canEdit"))
                     (obj_set "isOptional"
                        (nullish_coalesce (next_currentStep "isOptional")
                                          (obj_get oc "isOptional"))
                     (obj_set "isCompleted"
                        (nullish_coalesce (next_currentStep "isCompleted") (JBool true))
                     (obj_set "canAccess"
                        (nullish_coalesce (next_currentStep "canAccess")
                                          (obj_get oc "canAccess"))
                        oc)))))).
  { unfold callback. cbv beta zeta.
    destruct (Z.eqb_spec (Z.of_nat (Z.to_nat c)) c); [|lia].
    cbn [andb].
    by rewrite !nullish_or_member, !nullish_or_value, with_flags_object. }
  assert (Htgt : callback (Z.to_nat t) (JObj ot)
                 = Returned (JObj
                     (obj_set "canEdit"
                        (nullish_coalesce (next_nextStep "canEdit") (obj_get ot "canEdit"))
                     (obj_set "isOptional"
                        (nullish_coalesce (next_nextStep "isOptional")
                                          (obj_get ot "isOptional"))
                     (obj_set "isCompleted"
                        (nullish_coalesce (next_nextStep "isCompleted")
                                          (obj_get ot "isCompleted"))
                     (obj_set "canAccess"
                        (nullish_coalesce (next_nextStep "canAccess") (JBool true))
                        ot)))))).
  { unfold callback. cbv beta zeta.
    destruct (Z.eqb_spec (Z.of_nat (Z.to_nat t)) c); [lia|].
    destruct (Z.eqb_spec (Z.of_nat (Z.to_nat t)) t); [|lia].
    cbn [andb negb].
    by rewrite !nullish_or_member, !nullish_or_value, with_flags_object. }
  destruct (array_map_from_returns callback 0%nat steps) as [final Efinal].
  { intros n v Hn. simpl.
    destruct (decide (n = Z.to_nat c)) as [->|Hnc].
    { rewrite Hc in Hn. injection Hn as <-. by eexists. }
    destruct (decide (n = Z.to_nat t)) as [->|Hnt].
    { rewrite Ht in Hn. injection Hn as <-. by eexists. }
    unfold callback. cbv beta zeta.
    destruct (Z.eqb_spec (Z.of_nat n) c); [lia|].
    destruct (Z.eqb_spec (Z.of_nat n) t); [lia|].
    by eexists. }
  pose proof (array_map_from_lookup callback 0%nat steps final (Z.to_nat c) Efinal)
    as Lc.
  pose proof (array_map_from_lookup callback 0%nat steps final (Z.to_nat t) Efinal)
    as Lt.
  rewrite Hc in Lc. rewrite Ht in Lt. simpl in Lc, Lt.
  destruct Lc as (vc & Evc & Lc). destruct Lt as (vt & Evt & Lt).
  rewrite Hcur in Evc. rewrite Htgt in Evt.
  injection Evc as <-. injection Evt as <-.
  do 3 eexists. split; [exact Efinal|]. split; [exact Lc|]. split; [exact Lt|].
  repeat split;
    repeat first [ apply obj_get_obj_set_same
                 | rewrite obj_get_obj_set_other by discriminate ].
Qed.

Lemma forward_overrides_witness :
  let config :=
    JObj [("next", JObj [("currentStep", JObj [("canEdit", JBool false)])])] in
  let oc := own_props (step_object "Step 1" true true false false) in
  let ot := own_props (step_object "Step 3" false false false false) in
  0 <= 0 < 2
  /\ steps mockStepperState !! Z.to_nat 0 = Some (Some (JObj oc))
  /\ steps mockStepperState !! Z.to_nat 2 = Some (Some (JObj ot))
  /\ exists final oc' ot',
       useStepNavigation.updateStepStates config (steps mockStepperState) 0 2 true
       = Returned final
       /\ final !! Z.to_nat 0 = Some (Some (JObj oc'))
       /\ final !! Z.to_nat 2 = Some (Some (JObj ot'))
       /\ obj_get oc' "canEdit" = JBool false
       /\ obj_get oc' "isCompleted" = JBool true
       /\ obj_get ot' "canAccess" = JBool true
       /\ obj_get ot' "canEdit" = JBool false.
Proof.
  intros config oc ot.
  assert (Hct : 0 <= 0 < 2) by lia.
  assert (Hc : steps mockStepperState !! Z.to_nat 0 = Some (Some (JObj oc)))
    by reflexivity.
  assert (Ht : steps mockStepperState !! Z.to_nat 2 = Some (Some (JObj ot)))
    by reflexivity.
  destruct (forward_overrides config (steps mockStepperState) 0 2 oc ot Hct Hc Ht)
    as (final & oc' & ot' & E & Lc & Lt & _ & Hcomp & _ & Hedit & Hacc & _ & _ & Hedit').
  split; [exact Hct|]. split; [exact Hc|]. split; [exact Ht|].
  exists final, oc', ot'.
  split; [exact E|]. split; [exact Lc|]. split; [exact Lt|].
  split; [exact Hedit|]. split; [exact Hcomp|]. split; [exact Hacc|]. exact Hedit'.
Defined.

(** * The length invariant *)

(** C2, the failing input.  [onNext] on the three steps of the test suite
    with a status update for index 5: the assignment extends the array, the
    navigation commits, and the state is left with six slots (two of them
    holes) against [totalSteps = 3]. *)
Lemma onNext_with_out_of_range_status_update :
  let args :=
    mkNavigationArgs None [mkUpdateStepInput 5 [("isCompleted", JBool true)]] None in
  let w := world_at mockStepperState 0 in
  let w' := (useStepNavigation.onNext (config_with false) args w).2 in
  length_invariant (stepperState w)
  /\ currentStep w' = 1
  /\ steps (stepperState w') !! 3%nat = Some None
  /\ steps (stepperState w') !! 4%nat = Some None
  /\ steps (stepperState w') !! 5%nat = Some (Some (JObj [("isCompleted", JBool true)]))
  /\ length (steps (stepperState w')) = 6%nat
  /\ totalSteps (generalInfo (stepperState w')) = 3
  /\ ~ length_invariant (stepperState w').
Proof.
  intros args w w'. repeat (split; [reflexivity|]).
  unfold length_invariant. vm_compute. discriminate.
Qed.

Lemma fold_arr_set_length {A} (patch : JsArray -> A -> JsVal) (index : A -> Z)
    (updates : list A) (a : JsArray) :
  Forall (fun u => index u < Z.of_nat (length a)) updates ->
  length (fold_left (fun acc u => arr_set acc (index u) (patch acc u)) updates a)
  = length a.
Proof.
  revert a. induction updates as [|u updates IH]; intros a Hu; simpl; [done|].
  inversion Hu as [|? ? Hhd Htl]; subst.
  assert (Hlen : length (arr_set a (index u) (patch a u)) = length a).
  { destruct (Z.ltb_spec (index u) 0).
    - by rewrite arr_set_negative.
    - apply arr_set_in_range. lia. }
  rewrite IH; [done|]. by rewrite Hlen.
Qed.

(** Status updates at indices below the length (negative ones included,
    which assign no element) keep the number of steps. *)
Lemma updateStepsStatus_length s updates :
  Forall (fun u => stepIndex u < Z.of_nat (length (steps s))) updates ->
  length (useStepNavigation.updateStepsStatus s updates) = length (steps s).
Proof.
  intros Hu. unfold useStepNavigation.updateStepsStatus.
  rewrite (fold_arr_set_length
             (fun _ u => JObj (obj_spread (own_props (arr_get (steps s) (stepIndex u)))
                                          (data u)))
             stepIndex).
  - apply length_arr_spread.
  - by rewrite length_arr_spread.
Qed.

Lemma nextState_length_invariant config s c t args s' :
  Forall (fun u => stepIndex u < Z.of_nat (length (steps s))) (statusUpdates args) ->
  length_invariant s ->
  nextState config s c t args = Returned s' ->
  length_invariant s'.
Proof.
  intros Hu Hinv. unfold nextState.
  destruct (useStepNavigation.updateStepStates _ _ _ _ _) as [final|] eqn:E; simpl;
    [|done].
  destruct (useStepNavigation.calculateProgress _ _); simpl; [|done].
  intros [= <-]. unfold length_invariant in *. simpl.
  apply array_map_from_length in E. rewrite E.
  by rewrite updateStepsStatus_length.
Qed.

Lemma executeStepNavigation_length_invariant config t args w :
  Forall (fun u => stepIndex u < Z.of_nat (length (steps (stepperState w))))
         (statusUpdates args) ->
  length_invariant (stepperState w) ->
  length_invariant
    (stepperState (useStepNavigation.executeStepNavigation config t args w).2).
Proof.
  intros Hu Hinv. rewrite executeStepNavigation_cases. simpl.
  destruct (nextState _ _ _ _ _) as [s|e] eqn:Es; simpl; [|done].
  destruct (write_succeeds _ _); simpl; [|done].
  destruct (useStepNavigation.await_callback _ _ _) as [[|e] w']; simpl; [|done].
  by apply (nextState_length_invariant config (stepperState w) (currentStep w) t args).
Qed.

(** What does hold of the invariant of C2: [setStepsInfo] establishes it,
    and [updateGeneralState], [updateSteps] and the three navigation entry
    points keep it, the latter provided every index of [updateStepsStatus]
    is below the number of steps. *)
Lemma length_invariant_kept config w :
  (forall configs,
     length_invariant (stepperState (useStepsActions.setStepsInfo configs w).2))
  /\ (length_invariant (stepperState w) ->
      (forall data,
         length_invariant
           (stepperState (useStepsActions.updateGeneralState config data w).2))
      /\ (forall updates,
            length_invariant
              (stepperState (useStepsActions.updateSteps config updates w).2))
      /\ (forall args,
            Forall (fun u => stepIndex u < Z.of_nat (length (steps (stepperState w))))
                   (statusUpdates args) ->
            length_invariant (stepperState (useStepNavigation.onNext config args w).2)
            /\ length_invariant (stepperState (useStepNavigation.onPrev config args w).2)
            /\ forall t,
                 length_invariant
                   (stepperState (useStepNavigation.goToStep config t args w).2))).
Proof.
  split.
  { intros configs. unfold length_invariant. simpl. by rewrite length_imap. }
  intros Hinv. split; [|split].
  - intros data. unfold useStepsActions.updateGeneralState,
      useStepsActions.saveToLocalStorage, bind, updateStepperState,
      updateStepperStateWith, localStorage_setItem, with_localStorage, ret.
    simpl.
    destruct (truthy _); simpl; [destruct (refusesWrites _)|]; simpl; done.
  - intros updates. unfold useStepsActions.updateSteps.
    change (for_each _ updates)
      with (for_each (validate_update (stepperState w)) updates).
    unfold bind, lift.
    destruct (for_each (validate_update (stepperState w)) updates) as [[]|e] eqn:E;
      [|done].
    assert (Hlen :
      length (fold_left
                (fun updatedSteps update =>
                   arr_set updatedSteps (stepIndex update)
                     (JObj (obj_spread
                              (own_props (arr_get updatedSteps (stepIndex update)))
                              (data update))))
                updates (arr_spread (steps (stepperState w))))
      = length (steps (stepperState w))).
    { rewrite (fold_arr_set_length
                 (fun acc u => JObj (obj_spread (own_props (arr_get acc (stepIndex u)))
                                                (data u)))
                 stepIndex).
      - apply length_arr_spread.
      - rewrite length_arr_spread. apply Forall_forall. intros u Hu.
        apply list_elem_of_In in Hu.
        pose proof (validate_update_returned _ _ (for_each_returned _ _ E u Hu)) as Hok.
        unfold invalid_update, index_out_of_range in Hok. lia. }
    unfold useStepsActions.saveToLocalStorage, updateStepperState,
      updateStepperStateWith, localStorage_setItem, with_localStorage, ret.
    simpl.
    destruct (truthy _); simpl; [destruct (refusesWrites _)|]; simpl;
      unfold length_invariant in *; simpl; by rewrite Hlen.
  - intros args Hu. split; [|split].
    + destruct (Z.lt_ge_cases (currentStep w)
                  (totalSteps (generalInfo (stepperState w)) - 1)) as [Hlt|Hge].
      * rewrite onNext_accepted by done.
        by apply executeStepNavigation_length_invariant.
      * destruct (onNext_on_last_step_keeps_state config args w) as [-> _]; [lia|done].
    + unfold useStepNavigation.onPrev.
      destruct (Z.eqb_spec (currentStep w) 0); [done|].
      by apply executeStepNavigation_length_invariant.
    + intros t. unfold useStepNavigation.goToStep.
      destruct (_ || _); [done|].
      destruct (_ =? _); [done|].
      destruct (_ && _); [done|].
      by apply executeStepNavigation_length_invariant.
Qed.

(** * The persistence adapter *)

(** Induction on values, through the slots of arrays and the properties of
    objects. *)
Lemma JsVal_nested_ind (P : JsVal -> Prop)
    (Hundefined : P JUndefined) (Hnull : P JNull)
    (Hbool : forall b, P (JBool b)) (Hnum : forall n, P (JNum n))
    (Hstr : forall s, P (JStr s))
    (Harr : forall elems,
        Forall (fun slot => match slot with Some x => P x | None => True end) elems ->
        P (JArr elems))
    (Hobj : forall props, Forall (fun kv => P kv.2) props -> P (JObj props))
    : forall v, P v.
Proof.
  fix go 1. intros [| | b | n | s | elems | props];
    [exact Hundefined | exact Hnull | apply Hbool | apply Hnum | apply Hstr | | ].
  - apply Harr. induction elems as [|slot elems IH]; constructor; [|exact IH].
    destruct slot as [x|]; [apply go|exact I].
  - apply Hobj. induction props as [|[k x] props IH]; constructor; [|exact IH].
    apply go.
Qed.

Lemma obj_set_fresh k v o :
  ~ In k (object_keys o) -> obj_set k v o = (o ++ [(k, v)])%list.
Proof.
  induction o as [|[k' v'] o IH]; simpl; [done|].
  intros Hk. destruct (String.eqb k' k) eqn:E.
  - apply String.eqb_eq in E. tauto.
  - f_equal. apply IH. tauto.
Qed.

Lemma json_assign_distinct value members acc :
  NoDup (map fst members) ->
  (forall k, In k (map fst members) -> ~ In k (object_keys acc)) ->
  json_assign value members acc
  = (acc ++ map (fun kj => (kj.1, value kj.2)) members)%list.
Proof.
  revert acc. induction members as [|[k e] members IH]; intros acc Hnd Hfresh; simpl.
  - by rewrite app_nil_r.
  - inversion Hnd as [|? ? Hk Hnd']; subst.
    rewrite IH; [| done |].
    + rewrite obj_set_fresh by (apply Hfresh; by left).
      by rewrite <- app_assoc.
    + intros k' Hk'. rewrite obj_set_fresh by (apply Hfresh; by left).
      unfold object_keys. rewrite map_app, in_app_iff. simpl.
      intros [Hin|[<-|[]]].
      * apply (Hfresh k'); [by right|done].
      * apply Hk. by apply list_elem_of_In.
Qed.

Lemma json_members_roundtrip props :
  Forall (fun kv => exists j, JSON_stringify kv.2 = Some j /\ JSON_value j = kv.2) props ->
  map fst (json_members JSON_stringify props) = object_keys props
  /\ map (fun kj => (kj.1, JSON_value kj.2)) (json_members JSON_stringify props) = props.
Proof.
  induction 1 as [|[k x] props (j & Ej & Ex) _ [IHk IHv]]; simpl; [done|].
  simpl in Ej, Ex. rewrite Ej. simpl. rewrite IHk, IHv, Ex. done.
Qed.

(** [JSON.parse(JSON.stringify(v))] is [v] for a value JSON can carry. *)
Lemma JSON_roundtrip v :
  json_representable v = true ->
  exists j, JSON_stringify v = Some j /\ JSON_value j = v.
Proof.
  induction v as [| | b | n | s | elems IH | props IH] using JsVal_nested_ind;
    simpl; intros Hv; try done; try (by eexists).
  - destruct n; try done. by eexists.
  - eexists. split; [done|]. simpl. f_equal.
    induction IH as [|slot elems Hslot _ IHelems]; simpl; [done|].
    simpl in Hv. apply andb_true_iff in Hv as [Hs Hv].
    rewrite IHelems by done. f_equal.
    destruct slot as [x|]; [|done].
    destruct (Hslot Hs) as (j & Ej & Ex). rewrite Ej. simpl. by rewrite Ex.
  - apply andb_true_iff in Hv as [Hnd Hv].
    apply bool_decide_eq_true in Hnd.
    assert (Hall : Forall (fun kv => exists j, JSON_stringify kv.2 = Some j
                                               /\ JSON_value j = kv.2) props).
    { clear Hnd. induction IH as [|[k x] props Hx _ IHprops]; simpl in *; [done|].
      apply andb_true_iff in Hv as [Hs Hv]. constructor; [by apply Hx|by apply IHprops]. }
    destruct (json_members_roundtrip props Hall) as [Hkeys Hvals].
    eexists. split; [done|]. simpl. f_equal.
    rewrite json_assign_distinct; [by rewrite Hvals | by rewrite Hkeys | by intros ? _ []].
Qed.

(** Saving any value JSON can carry and loading it back yields the value;
    the load is silent and leaves the store as the save left it. *)
Lemma save_then_load_value key (data : JsVal) (w : World) :
  json_representable data = true ->
  refusesWrites (localStorage w) = false ->
  let w1 := (useStepperSync.saveToLocalStorage key data w).2 in
  console w1 = console w
  /\ useStepperSync.loadFromLocalStorage key w1 = (Returned data, w1).
Proof.
  intros Hdata Hw.
  destruct (JSON_roundtrip data Hdata) as (j & Ej & Ev).
  unfold useStepperSync.saveToLocalStorage, useStepperSync.loadFromLocalStorage,
    try_catch, bind, localStorage_setItem, localStorage_getItem, with_localStorage.
  rewrite Hw, Ej. simpl. rewrite lookup_insert_eq. simpl.
  unfold lift. simpl. rewrite Ev. done.
Qed.

(** C9, as stated, fails: a stepper state holding a sparse step list, the
    one [onNext] commits when it is given a status update for index 5, does
    not come back from the store.  [JSON.stringify] writes [null] for a
    hole, so the loaded [steps] has the element [null] at index 3, where
    the saved one has no element. *)
Lemma sparse_state_does_not_round_trip :
  let saved := StepperState_value sparse_state in
  let w := world_at mockStepperState 0 in
  let w1 := (useStepperSync.saveToLocalStorage "stepperState" saved w).2 in
  let loaded := (useStepperSync.loadFromLocalStorage "stepperState" w1).1 in
  elements (opt_member saved "steps") !! 3%nat = Some None
  /\ console w1 = []
  /\ exists v,
       loaded = Returned v
       /\ elements (opt_member v "steps") !! 3%nat = Some (Some JNull)
       /\ v <> saved.
Proof.
  intros saved w w1 loaded. split; [reflexivity|]. split; [reflexivity|].
  eexists. split; [vm_compute; reflexivity|]. split; [reflexivity|].
  intros H.
  apply (f_equal (fun v => elements (opt_member v "steps") !! 3%nat)) in H.
  vm_compute in H. discriminate H.
Qed.

(** C9, amended.  For every stepper state that JSON can carry (steps without
    holes, no [undefined], [NaN] or infinity anywhere in the steps or the
    shared payload), when the storage write succeeds, saving the state under
    a key and loading that key back yields the very value that was saved,
    with nothing logged. *)
Theorem save_then_load key (s : StepperState) (w : World) :
  json_representable (StepperState_value s) = true ->
  refusesWrites (localStorage w) = false ->
  let w1 := (useStepperSync.saveToLocalStorage key (StepperState_value s) w).2 in
  console w1 = console w
  /\ useStepperSync.loadFromLocalStorage key w1 = (Returned (StepperState_value s), w1).
Proof. intros Hs Hw. by apply save_then_load_value. Qed.

Lemma save_then_load_witness :
  let w := world_at mockStepperState 0 in
  let w1 :=
    (useStepperSync.saveToLocalStorage "stepperState"
       (StepperState_value mockStepperState) w).2 in
  json_representable (StepperState_value mockStepperState) = true
  /\ refusesWrites (localStorage w) = false
  /\ useStepperSync.loadFromLocalStorage "stepperState" w1
     = (Returned (StepperState_value mockStepperState), w1).
Proof.
  intros w w1.
  assert (Hs : json_representable (StepperState_value mockStepperState) = true)
    by (vm_compute; reflexivity).
  assert (Hw : refusesWrites (localStorage w) = false) by reflexivity.
  split; [exact Hs|]. split; [exact Hw|].
  exact (proj2 (save_then_load "stepperState" mockStepperState w Hs Hw)).
Defined.

(** * Further properties of the navigation engine *)

Lemma arr_get_arr_set_same a i v : 0 <= i -> arr_get (arr_set a i v) i = v.
Proof.
  intros Hi. unfold arr_get, arr_set.
  destruct (Z.ltb_spec i 0); [lia|].
  destruct (Nat.ltb_spec (Z.to_nat i) (length a)).
  - by rewrite list_lookup_insert_eq.
  - rewrite lookup_app_r by lia.
    rewrite lookup_app_r by (rewrite length_replicate; lia).
    rewrite length_replicate.
    by replace (Z.to_nat i - length a - (Z.to_nat i - length a))%nat with 0%nat by lia.
Qed.

Lemma arr_get_arr_set_other a i j v :
  i <> j -> arr_get (arr_set a i v) j = arr_get a j.
Proof.
  intros Hij. unfold arr_get, arr_set.
  destruct (Z.ltb_spec j 0); [done|].
  destruct (Z.ltb_spec i 0); [done|].
  assert (Hn : Z.to_nat i <> Z.to_nat j) by lia.
  destruct (Nat.ltb_spec (Z.to_nat i) (length a)).
  - by rewrite list_lookup_insert_ne.
  - destruct (Nat.lt_ge_cases (Z.to_nat j) (length a)) as [Hj|Hj].
    + by rewrite lookup_app_l.
    + rewrite lookup_app_r by done.
      rewrite (lookup_ge_None_2 a (Z.to_nat j)) by done.
      destruct (Nat.lt_ge_cases (Z.to_nat j - length a) (Z.to_nat i - length a))
        as [Hk|Hk].
      * rewrite lookup_app_l by (by rewrite length_replicate).
        by rewrite lookup_replicate_2.
      * rewrite lookup_app_r by (by rewrite length_replicate).
        rewrite length_replicate.
        destruct (Z.to_nat j - length a - (Z.to_nat i - length a))%nat eqn:E; [lia|].
        done.
Qed.

Lemma arr_get_arr_spread a j : arr_get (arr_spread a) j = arr_get a j.
Proof.
  unfold arr_get, arr_spread. destruct (j <? 0); [done|].
  rewrite list_lookup_fmap. by destruct (a !! Z.to_nat j) as [[v|]|].
Qed.




(** X2.  A transition rewrites at most the step it leaves and the step it
    enters: every other slot of the step list comes out of
    [updateStepStates] as it went in, in both directions and under every
    configuration. *)
Theorem updateStepStates_other_steps config (a a' : JsArray) c t forward (n : nat) :
  useStepNavigation.updateStepStates config a c t forward = Returned a' ->
  Z.of_nat n <> c ->
  Z.of_nat n <> t ->
  a' !! n = a !! n.
Proof.
  intros E Hc Ht. unfold useStepNavigation.updateStepStates, array_map in E.
  pose proof (array_map_from_lookup _ 0%nat a a' n E) as L.
  destruct (a !! n) as [[v|]|]; [|done|done].
  destruct L as (v' & Ev & ->). simpl in Ev.
  destruct (Z.eqb_spec (Z.of_nat n) c); [lia|].
  destruct (Z.eqb_spec (Z.of_nat n) t); [lia|].
  simpl in Ev. by injection Ev as <-.
Qed.

Lemma updateStepStates_other_steps_witness :
  exists a',
    useStepNavigation.updateStepStates (config_with false) (steps mockStepperState)
      0 1 true = Returned a'
    /\ Z.of_nat 2 <> 0
    /\ Z.of_nat 2 <> 1
    /\ a' !! 2%nat = steps mockStepperState !! 2%nat.
Proof.
  eexists.
  assert (E : useStepNavigation.updateStepStates (config_with false)
                (steps mockStepperState) 0 1 true = Returned _)
    by (vm_compute; reflexivity).
  assert (H0 : Z.of_nat 2 <> 0) by lia.
  assert (H1 : Z.of_nat 2 <> 1) by lia.
  split; [exact E|]. split; [exact H0|]. split; [exact H1|].
  exact (updateStepStates_other_steps _ _ _ _ _ _ 2%nat E H0 H1).
Defined.

Lemma flags_object_get o a b c d k :
  obj_get (obj_set "canEdit" d
            (obj_set "isOptional" c
              (obj_set "isCompleted" b
                (obj_set "canAccess" a o)))) k
  = if String.eqb "canEdit" k then d
    else if String.eqb "isOptional" k then c
    else if String.eqb "isCompleted" k then b
    else if String.eqb "canAccess" k then a
    else obj_get o k.
Proof.
  destruct (String.eqb_spec "canEdit" k) as [<-|H1];
    [by rewrite obj_get_obj_set_same|].
  rewrite obj_get_obj_set_other by done.
  destruct (String.eqb_spec "isOptional" k) as [<-|H2];
    [by rewrite obj_get_obj_set_same|].
  rewrite obj_get_obj_set_other by done.
  destruct (String.eqb_spec "isCompleted" k) as [<-|H3];
    [by rewrite obj_get_obj_set_same|].
  rewrite obj_get_obj_set_other by done.
  destruct (String.eqb_spec "canAccess" k) as [<-|H4];
    [by rewrite obj_get_obj_set_same|].
  by rewrite obj_get_obj_set_other.
Qed.

(** X3.  For every backward transition (target [t] below the current index
    [c]) and every configuration, on steps [c] and [t] that are objects:
    each of [canAccess], [isCompleted], [isOptional] and [canEdit] of step
    [c] is the value configured under [prev.currentStep] if there is one,
    and of step [t] the value configured under [prev.prevStep] if there is
    one, and keeps its value otherwise.  There is no default on the way
    back (the step that is left stays completed unless the configuration
    says otherwise), and every other property of the two steps is kept. *)
Theorem backward_overrides config (steps : JsArray) c t oc ot :
  0 <= t < c ->
  steps !! Z.to_nat c = Some (Some (JObj oc)) ->
  steps !! Z.to_nat t = Some (Some (JObj ot)) ->
  let flags := ["canAccess"; "isCompleted"; "isOptional"; "canEdit"] in
  exists final oc' ot',
    useStepNavigation.updateStepStates config steps c t false = Returned final
    /\ final !! Z.to_nat c = Some (Some (JObj oc'))
    /\ final !! Z.to_nat t = Some (Some (JObj ot'))
    /\ (forall field, In field flags ->
          obj_get oc' field
          = nullish_coalesce
              (useStepNavigation.config_path config ["prev"; "currentStep"; field])
              (obj_get oc field))
    /\ (forall field, In field flags ->
          obj_get ot' field
          = nullish_coalesce
              (useStepNavigation.config_path config ["prev"; "prevStep"; field])
              (obj_get ot field))
    /\ (forall key, ~ In key flags ->
          obj_get oc' key = obj_get oc key /\ obj_get ot' key = obj_get ot key).
Proof.
  intros Htc Hc Ht flags.
  unfold useStepNavigation.updateStepStates, array_map.
  match goal with
  | |- context [array_map_from ?f 0%nat steps] => set (callback := f)
  end.
  assert (Hcur : exists oc',
             callback (Z.to_nat c) (JObj oc) = Returned (JObj oc')
             /\ forall k,
                  obj_get oc' k
                  = if String.eqb "canEdit" k then
                      nullish_coalesce
                        (useStepNavigation.config_path config ["prev"; "currentStep"; "canEdit"])
                        (obj_get oc "canEdit")
                    else if String.eqb "isOptional" k then
                      nullish_coalesce
                        (useStepNavigation.config_path config
                           ["prev"; "currentStep"; "isOptional"])
                        (obj_get oc "isOptional")
                    else if String.eqb "isCompleted" k then
                      nullish_coalesce
                        (useStepNavigation.config_path config
                           ["prev"; "currentStep"; "isCompleted"])
                        (obj_get oc "isCompleted")
                    else if String.eqb "canAccess" k then
                      nullish_coalesce
                        (useStepNavigation.config_path config
                           ["prev"; "currentStep"; "canAccess"])
                        (obj_get oc "canAccess")
                    else obj_get oc k).
  { eexists. split.
    - unfold callback. cbv beta zeta.
      destruct (Z.eqb_spec (Z.of_nat (Z.to_nat c)) c); [|lia].
      cbn [andb negb].
      by rewrite !nullish_or_member, with_flags_object.
    - intros k. apply flags_object_get. }
  assert (Htgt : exists ot',
             callback (Z.to_nat t) (JObj ot) = Returned (JObj ot')
             /\ forall k,
                  obj_get ot' k
                  = if String.eqb "canEdit" k then
                      nullish_coalesce
                        (useStepNavigation.config_path config ["prev"; "prevStep"; "canEdit"])
                        (obj_get ot "canEdit")
                    else if String.eqb "isOptional" k then
                      nullish_coalesce
                        (useStepNavigation.config_path config
                           ["prev"; "prevStep"; "isOptional"])
                        (obj_get ot "isOptional")
                    else if String.eqb "isCompleted" k then
                      nullish_coalesce
                        (useStepNavigation.config_path config
                           ["prev"; "prevStep"; "isCompleted"])
                        (obj_get ot "isCompleted")
                    else if String.eqb "canAccess" k then
                      nullish_coalesce
                        (useStepNavigation.config_path config
                           ["prev"; "prevStep"; "canAccess"])
                        (obj_get ot "canAccess")
                    else obj_get ot k).
  { eexists. split.
    - unfold callback. cbv beta zeta.
      destruct (Z.eqb_spec (Z.of_nat (Z.to_nat t)) c); [lia|].
      destruct (Z.eqb_spec (Z.of_nat (Z.to_nat t)) t); [|lia].
      cbn [andb negb].
      by rewrite !nullish_or_member, with_flags_object.
    - intros k. apply flags_object_get. }
  destruct Hcur as (oc' & Ecur & Hoc'). destruct Htgt as (ot' & Etgt & Hot').
  destruct (array_map_from_returns callback 0%nat steps) as [final Efinal].
  { intros n v Hn. simpl.
    destruct (decide (n = Z.to_nat c)) as [->|Hnc].
    { rewrite Hc in Hn. injection Hn as <-. by eexists. }
    destruct (decide (n = Z.to_nat t)) as [->|Hnt].
    { rewrite Ht in Hn. injection Hn as <-. by eexists. }
    unfold callback. cbv beta zeta.
    destruct (Z.eqb_spec (Z.of_nat n) c); [lia|].
    destruct (Z.eqb_spec (Z.of_nat n) t); [lia|].
    by eexists. }
  pose proof (array_map_from_lookup callback 0%nat steps final (Z.to_nat c) Efinal)
    as Lc.
  pose proof (array_map_from_lookup callback 0%nat steps final (Z.to_nat t) Efinal)
    as Lt.
  rewrite Hc in Lc. rewrite Ht in Lt. simpl in Lc, Lt.
  destruct Lc as (vc & Evc & Lc). destruct Lt as (vt & Evt & Lt).
  rewrite Ecur in Evc. rewrite Etgt in Evt.
  injection Evc as <-. injection Evt as <-.
  exists final, oc', ot'.
  split; [exact Efinal|]. split; [exact Lc|]. split; [exact Lt|].
  split; [|split].
  - intros field [<-|[<-|[<-|[<-|[]]]]]; by rewrite Hoc'.
  - intros field [<-|[<-|[<-|[<-|[]]]]]; by rewrite Hot'.
  - intros key Hkey. rewrite Hoc', Hot'.
    destruct (String.eqb_spec "canEdit" key) as [<-|_].
    { exfalso. apply Hkey. simpl. tauto. }
    destruct (String.eqb_spec "isOptional" key) as [<-|_].
    { exfalso. apply Hkey. simpl. tauto. }
    destruct (String.eqb_spec "isCompleted" key) as [<-|_].
    { exfalso. apply Hkey. simpl. tauto. }
    destruct (String.eqb_spec "canAccess" key) as [<-|_].
    { exfalso. apply Hkey. simpl. tauto. }
    done.
Qed.

Lemma backward_overrides_witness :
  let oc := own_props (step_object "Step 2" true true false true) in
  let ot := own_props (step_object "Step 1" true true false true) in
  let steps := [Some (JObj ot); Some (JObj oc)] in
  0 <= 0 < 1
  /\ steps !! Z.to_nat 1 = Some (Some (JObj oc))
  /\ steps !! Z.to_nat 0 = Some (Some (JObj ot))
  /\ exists final oc' ot',
       useStepNavigation.updateStepStates (config_with false) steps 1 0 false
       = Returned final
       /\ final !! Z.to_nat 1 = Some (Some (JObj oc'))
       /\ final !! Z.to_nat 0 = Some (Some (JObj ot'))
       /\ obj_get oc' "isCompleted" = JBool true
       /\ obj_get ot' "isCompleted" = JBool true.
Proof.
  intros oc ot steps.
  assert (Htc : 0 <= 0 < 1) by lia.
  assert (Hc : steps !! Z.to_nat 1 = Some (Some (JObj oc))) by reflexivity.
  assert (Ht : steps !! Z.to_nat 0 = Some (Some (JObj ot))) by reflexivity.
  destruct (backward_overrides (config_with false) steps 1 0 oc ot Htc Hc Ht)
    as (final & oc' & ot' & E & Lc & Lt & Hcur & Htgt & _).
  split; [exact Htc|]. split; [exact Hc|]. split; [exact Ht|].
  exists final, oc', ot'.
  split; [exact E|]. split; [exact Lc|]. split; [exact Lt|].
  split.
  - exact (Hcur "isCompleted" (or_intror (or_introl eq_refl))).
  - exact (Htgt "isCompleted" (or_intror (or_introl eq_refl))).
Defined.

Lemma array_filter_length keep a kept :
  array_filter keep a = Returned kept -> (length kept <= length a)%nat.
Proof.
  revert kept. induction a as [|slot a IH]; intros kept; simpl.
  - intros [= <-]. done.
  - destruct slot as [v|].
    + destruct (keep v) as [b|]; simpl; [|done].
      destruct (array_filter keep a) as [rest|]; simpl; [|done].
      intros [= <-]. specialize (IH rest eq_refl). destruct b; simpl; lia.
    + intros E. specialize (IH kept E). lia.
Qed.

Lemma ratio_unit_interval n d : 0 <= n <= d -> 0 < d -> unit_interval (ratio n d).
Proof.
  intros Hn Hd. unfold unit_interval, ratio.
  assert (Hd' : (0 < inject_Z d)%Q) by (rewrite <- (Zlt_Qlt 0); lia).
  split.
  - apply Qle_shift_div_l; [done|]. rewrite Qmult_0_l.
    rewrite <- (Zle_Qle 0). lia.
  - apply Qle_shift_div_r; [done|]. rewrite Qmult_1_l.
    rewrite <- Zle_Qle. lia.
Qed.

(** The two counted ratios of a transition: each is a number of steps of
    the new list over [totalSteps || 1]. *)
Lemma nextState_counts config s c t args s' :
  nextState config s c t args = Returned s' ->
  exists completed accessible : nat,
    (completed <= length (steps s'))%nat
    /\ (accessible <= length (steps s'))%nat
    /\ completedProgress (generalInfo s')
       = ratio (Z.of_nat completed) (or_one (totalSteps (generalInfo s)))
    /\ canAccessProgress (generalInfo s')
       = ratio (Z.of_nat accessible) (or_one (totalSteps (generalInfo s))).
Proof.
  unfold nextState.
  destruct (useStepNavigation.updateStepStates _ _ _ _ _) as [final|]; simpl; [|done].
  unfold useStepNavigation.calculateProgress.
  destruct (array_filter _ final) as [k1|] eqn:E1; simpl; [|done].
  destruct (array_filter _ final) as [k2|] eqn:E2 in |- *; simpl; [|done].
  intros [= <-]. simpl.
  exists (length k1), (length k2).
  split; [by apply (array_filter_length _ _ _ E1)|].
  split; [by apply (array_filter_length _ _ _ E2)|]. done.
Qed.

(** X4.  On a state whose step list has [totalSteps] entries, with every
    status update addressed below that length and an active index within
    [0 .. totalSteps], a navigation that moves the index leaves the three
    progress ratios between 0 and 1. *)
Theorem progress_stays_in_unit_interval config args w :
  let N := totalSteps (generalInfo (stepperState w)) in
  let c := currentStep w in
  let bounded (t : Z) (r : Outcome unit * World) :=
    currentStep r.2 = t ->
    unit_interval (currentProgress (generalInfo (stepperState r.2)))
    /\ unit_interval (completedProgress (generalInfo (stepperState r.2)))
    /\ unit_interval (canAccessProgress (generalInfo (stepperState r.2))) in
  length_invariant (stepperState w) ->
  Forall (fun u => stepIndex u < Z.of_nat (length (steps (stepperState w))))
         (statusUpdates args) ->
  0 <= c <= N ->
  (c < N - 1 -> bounded (c + 1) (useStepNavigation.onNext config args w))
  /\ (c <> 0 -> bounded (c - 1) (useStepNavigation.onPrev config args w))
  /\ (forall t, goToStep_accepts config w t ->
                bounded t (useStepNavigation.goToStep config t args w)).
Proof.
  intros N c bounded Hinv Hu Hc.
  assert (Hexec : forall t, 0 <= t < N -> t <> c ->
            bounded t (useStepNavigation.executeStepNavigation config t args w)).
  { intros t Ht Hne Hmoved.
    destruct (executeStepNavigation_moved config t args w Hne Hmoved) as (s' & Es & ->).
    destruct (nextState_generalInfo _ _ _ _ _ _ Es) as [HN' ->].
    destruct (nextState_counts _ _ _ _ _ _ Es) as (n1 & n2 & H1 & H2 & -> & ->).
    pose proof (nextState_length_invariant _ _ _ _ _ _ Hu Hinv Es) as Hinv'.
    unfold length_invariant in Hinv'. rewrite HN' in Hinv'. fold N in Hinv' |- *.
    assert (HN : or_one N = N) by (unfold or_one; destruct (Z.eqb_spec N 0); lia).
    rewrite HN.
    repeat split; apply ratio_unit_interval; lia. }
  split; [|split].
  - intros Hlt. rewrite onNext_accepted by done. apply Hexec; subst c; lia.
  - intros Hne. rewrite onPrev_accepted by done. apply Hexec; subst c; lia.
  - intros t Hacc. rewrite goToStep_accepted by done.
    destruct Hacc as (Hr & Hne & _). by apply Hexec.
Qed.

Lemma progress_stays_in_unit_interval_witness :
  let args := mkNavigationArgs None [mkUpdateStepInput 2 [("canAccess", JBool true)]] None in
  let w := world_at mockStepperState 0 in
  let w' := (useStepNavigation.onNext (config_with false) args w).2 in
  length_invariant (stepperState w)
  /\ Forall (fun u => stepIndex u < Z.of_nat (length (steps (stepperState w))))
            (statusUpdates args)
  /\ 0 <= currentStep w <= totalSteps (generalInfo (stepperState w))
  /\ currentStep w < totalSteps (generalInfo (stepperState w)) - 1
  /\ currentStep w' = 1
  /\ unit_interval (canAccessProgress (generalInfo (stepperState w'))).
Proof.
  intros args w w'.
  assert (Hinv : length_invariant (stepperState w)) by reflexivity.
  assert (Hu : Forall (fun u => stepIndex u < Z.of_nat (length (steps (stepperState w))))
                      (statusUpdates args)).
  { repeat constructor. }
  assert (Hc : 0 <= currentStep w <= totalSteps (generalInfo (stepperState w)))
    by (simpl; lia).
  assert (Hlt : currentStep w < totalSteps (generalInfo (stepperState w)) - 1)
    by (simpl; lia).
  destruct (progress_stays_in_unit_interval (config_with false) args w Hinv Hu Hc)
    as [Hnext _].
  destruct (Hnext Hlt eq_refl) as (_ & _ & Haccess).
  split; [exact Hinv|]. split; [exact Hu|]. split; [exact Hc|]. split; [exact Hlt|].
  split; [reflexivity|exact Haccess].
Defined.

(** X5.  A navigation the guard clauses block is without effect but for its
    warning: [onPrev] on the first step, [goToStep] to the active step
    (which logs nothing), and a forward [goToStep] to a step that is not
    accessible while the validation is on.  The options of the call play no
    part: a status update of the same call that would make the target
    accessible does not unblock it. *)
Theorem blocked_navigation_changes_nothing config args w :
  let N := totalSteps (generalInfo (stepperState w)) in
  let c := currentStep w in
  let only_logs (calls : list ConsoleCall) (r : Outcome unit * World) :=
    r = (Returned tt,
         mkWorld (stepperState w) c (loading w) (localStorage w)
                 (console w ++ calls)) in
  (c = 0 -> only_logs [WarnFirstStep] (useStepNavigation.onPrev config args w))
  /\ (0 <= c < N -> only_logs [] (useStepNavigation.goToStep config c args w))
  /\ (forall t,
        0 <= t -> c < t < N ->
        truthy (nullish_coalesce
                  (useStepNavigation.config_path config
                     ["validations"; "goToStep"; "canAccess"])
                  (JBool true)) = true ->
        truthy (opt_member (arr_get (steps (stepperState w)) t) "canAccess") = false ->
        only_logs [WarnNotAccessible t] (useStepNavigation.goToStep config t args w)).
Proof.
  intros N c only_logs. subst N c only_logs. cbv beta. split; [|split].
  - intros Hc. unfold useStepNavigation.onPrev.
    destruct (Z.eqb_spec (currentStep w) 0); [done|lia].
  - intros Hc. unfold useStepNavigation.goToStep.
    destruct (Z.ltb_spec (currentStep w) 0); [lia|].
    destruct (Z.geb_spec (currentStep w) (totalSteps (generalInfo (stepperState w))));
      [lia|].
    cbn [orb]. rewrite Z.eqb_refl. rewrite app_nil_r. by destruct w.
  - intros t H0 Ht Hv Hacc. by apply goToStep_forward_is_validated.
Qed.

Lemma blocked_navigation_changes_nothing_witness :
  let args :=
    mkNavigationArgs None [mkUpdateStepInput 2 [("canAccess", JBool true)]] None in
  let w := world_at mockStepperState 0 in
  0 <= 2
  /\ currentStep w < 2 < totalSteps (generalInfo (stepperState w))
  /\ useStepNavigation.goToStep (config_with false) 2 args w
     = (Returned tt,
        mkWorld (stepperState w) (currentStep w) (loading w) (localStorage w)
                (console w ++ [WarnNotAccessible 2])).
Proof.
  intros args w.
  assert (H0 : 0 <= 2) by lia.
  assert (Ht : currentStep w < 2 < totalSteps (generalInfo (stepperState w)))
    by (simpl; lia).
  destruct (blocked_navigation_changes_nothing (config_with false) args w)
    as (_ & _ & Hblocked).
  split; [exact H0|]. split; [exact Ht|].
  apply (Hblocked 2 H0 Ht); reflexivity.
Defined.

(** * Further properties of the step actions *)

Lemma validate_update_valid state u :
  ~ invalid_update state u -> validate_update state u = Returned tt.
Proof.
  intros Hok. unfold validate_update.
  destruct (forallb _ _) eqn:Ekeys; simpl.
  - destruct (Z.ltb_spec (stepIndex u) 0); simpl.
    { exfalso. apply Hok. right. by left. }
    destruct (Z.geb_spec (stepIndex u) (Z.of_nat (length (steps state)))); [|done].
    exfalso. apply Hok. right. right. lia.
  - exfalso. apply Hok. left.
    apply forallb_false_In in Ekeys as (key & Hkey & E).
    exists key. split; [done|]. rewrite <- includes_In. by rewrite E.
Qed.

Lemma for_each_all_returned {A} (f : A -> Outcome unit) (a : list A) :
  (forall x, In x a -> f x = Returned tt) -> for_each f a = Returned tt.
Proof.
  induction a as [|x a IH]; simpl; [done|].
  intros H. rewrite (H x) by (by left). simpl. apply IH. intros y Hy. apply H. by right.
Qed.

Lemma fold_patches_overlay updates (a : JsArray) j :
  0 <= j ->
  arr_get
    (fold_left
       (fun updatedSteps update =>
          arr_set updatedSteps (stepIndex update)
            (JObj (obj_spread (own_props (arr_get updatedSteps (stepIndex update)))
                              (data update))))
       updates a) j
  = overlay j updates (arr_get a j).
Proof.
  intros Hj. unfold overlay. revert a.
  induction updates as [|u updates IH]; intros a; simpl; [done|].
  rewrite IH. f_equal.
  destruct (Z.eqb_spec (stepIndex u) j) as [->|Hne].
  - by rewrite arr_get_arr_set_same.
  - by rewrite arr_get_arr_set_other.
Qed.

(** The world [updateSteps] leaves on a batch without an invalid entry: the
    patched state is committed first, the write comes second. *)
Lemma updateSteps_valid config updates w :
  Forall (fun u => ~ invalid_update (stepperState w) u) updates ->
  exists steps',
    length steps' = length (steps (stepperState w))
    /\ (forall j, 0 <= j ->
          arr_get steps' j = overlay j updates (arr_get (steps (stepperState w)) j))
    /\ let s' := mkStepperState (generalInfo (stepperState w)) steps'
                   (generalState (stepperState w))
                   (isLoadedFromLocalStorage (stepperState w)) in
       useStepsActions.updateSteps config updates w
       = (if write_succeeds config (localStorage w)
          then Returned s' else Thrown QuotaExceededError,
          mkWorld s' (currentStep w) (loading w)
                  (if write_succeeds config (localStorage w)
                   then persisted config s' (localStorage w)
                   else localStorage w)
                  (console w)).
Proof.
  intros Hok. unfold useStepsActions.updateSteps.
  change (for_each _ updates)
    with (for_each (validate_update (stepperState w)) updates).
  rewrite for_each_all_returned.
  2:{ intros u Hu. apply validate_update_valid.
      rewrite Forall_forall in Hok. apply Hok. by apply list_elem_of_In. }
  eexists. split; [|split].
  3:{ unfold bind, lift, useStepsActions.saveToLocalStorage, write_succeeds, persisted,
        persistence_enabled, updateStepperState, updateStepperStateWith,
        localStorage_setItem, with_localStorage, ret.
      simpl.
      destruct (truthy (opt_member config "saveLocalStorage")); simpl;
        [destruct (refusesWrites (localStorage w))|]; simpl; reflexivity. }
  - rewrite (fold_arr_set_length
               (fun acc u => JObj (obj_spread (own_props (arr_get acc (stepIndex u)))
                                              (data u)))
               stepIndex).
    + apply length_arr_spread.
    + rewrite length_arr_spread. apply Forall_forall. intros u Hu.
      rewrite Forall_forall in Hok. specialize (Hok u Hu).
      unfold invalid_update, index_out_of_range in Hok. lia.
  - intros j Hj. rewrite fold_patches_overlay by done.
    by rewrite arr_get_arr_spread.
Qed.

(** X6.  On a batch that passes the validation, [updateSteps] leaves each
    step as the old step with every patch addressed to it spread over it, in
    the order of the batch (patches for one step add up), and keeps the
    number of steps.  It touches nothing else: [generalInfo] (so the
    progress ratios are not recomputed from the new flags), the shared
    payload, the active index, the busy flag and the console are as
    before. *)
Theorem updateSteps_applies_every_patch config updates w :
  Forall (fun u => ~ invalid_update (stepperState w) u) updates ->
  let w' := (useStepsActions.updateSteps config updates w).2 in
  (forall j, 0 <= j ->
     arr_get (steps (stepperState w')) j
     = overlay j updates (arr_get (steps (stepperState w)) j))
  /\ length (steps (stepperState w')) = length (steps (stepperState w))
  /\ generalInfo (stepperState w') = generalInfo (stepperState w)
  /\ generalState (stepperState w') = generalState (stepperState w)
  /\ currentStep w' = currentStep w
  /\ loading w' = loading w
  /\ console w' = console w.
Proof.
  intros Hok.
  destruct (updateSteps_valid config updates w Hok) as (steps' & Hlen & Hget & ->).
  simpl. done.
Qed.

Lemma updateSteps_applies_every_patch_witness :
  let updates :=
    [mkUpdateStepInput 1 [("canEdit", JBool false)];
     mkUpdateStepInput 1 [("isCompleted", JBool true)]] in
  let w := world_at mockStepperState 0 in
  let w' := (useStepsActions.updateSteps (config_with false) updates w).2 in
  Forall (fun u => ~ invalid_update (stepperState w) u) updates
  /\ arr_get (steps (stepperState w')) 1
     = JObj [("name", JStr "Step 2"); ("canAccess", JBool true);
             ("canEdit", JBool false); ("isOptional", JBool false);
             ("isCompleted", JBool true)]
  /\ generalInfo (stepperState w') = generalInfo (stepperState w).
Proof.
  intros updates w w'.
  assert (Hok : Forall (fun u => ~ invalid_update (stepperState w) u) updates).
  { apply Forall_forall. intros u Hu. apply (validate_update_returned (stepperState w)).
    apply list_elem_of_In in Hu. destruct Hu as [<-|[<-|[]]]; reflexivity. }
  destruct (updateSteps_applies_every_patch (config_with false) updates w Hok)
    as (Hget & _ & Hinfo & _).
  split; [exact Hok|]. split; [|exact Hinfo].
  exact (Hget 1 ltac:(lia)).
Defined.

Lemma updateGeneralState_world config data w :
  let s' := mkStepperState (generalInfo (stepperState w)) (steps (stepperState w))
              (obj_spread (generalState (stepperState w)) data)
              (isLoadedFromLocalStorage (stepperState w)) in
  useStepsActions.updateGeneralState config data w
  = (if write_succeeds config (localStorage w)
     then Returned s' else Thrown QuotaExceededError,
     mkWorld s' (currentStep w) (loading w)
             (if write_succeeds config (localStorage w)
              then persisted config s' (localStorage w)
              else localStorage w)
             (console w)).
Proof.
  unfold useStepsActions.updateGeneralState, bind,
    useStepsActions.saveToLocalStorage, write_succeeds, persisted,
    persistence_enabled, updateStepperState, updateStepperStateWith,
    localStorage_setItem, with_localStorage, ret.
  simpl.
  destruct (truthy (opt_member config "saveLocalStorage")); simpl;
    [destruct (refusesWrites (localStorage w))|]; simpl; reflexivity.
Qed.

(** X7.  [updateGeneralState] and [updateSteps] commit before they persist.
    When the store refuses the write, the call throws the store's error
    instead of returning the new state, yet the new state is already
    committed and the blob is still the old one. *)
Theorem refused_write_leaves_action_committed config w :
  write_succeeds config (localStorage w) = false ->
  (forall data,
     let r := useStepsActions.updateGeneralState config data w in
     r.1 = Thrown QuotaExceededError
     /\ generalState (stepperState r.2)
        = obj_spread (generalState (stepperState w)) data
     /\ localStorage r.2 = localStorage w)
  /\ (forall updates,
        Forall (fun u => ~ invalid_update (stepperState w) u) updates ->
        let r := useStepsActions.updateSteps config updates w in
        r.1 = Thrown QuotaExceededError
        /\ (forall j, 0 <= j ->
              arr_get (steps (stepperState r.2)) j
              = overlay j updates (arr_get (steps (stepperState w)) j))
        /\ localStorage r.2 = localStorage w).
Proof.
  intros Hw. split.
  - intros data. cbv zeta. rewrite updateGeneralState_world, Hw. done.
  - intros updates Hok.
    destruct (updateSteps_valid config updates w Hok) as (steps' & _ & Hget & E).
    cbv zeta in E |- *. rewrite E, Hw. done.
Qed.

Lemma refused_write_leaves_action_committed_witness :
  let w := mkWorld mockStepperState 0 false (mkLocalStorage ∅ true) [] in
  let r := useStepsActions.updateGeneralState (config_with true)
             [("email", JStr "a@b.c")] w in
  write_succeeds (config_with true) (localStorage w) = false
  /\ r.1 = Thrown QuotaExceededError
  /\ generalState (stepperState r.2) = [("email", JStr "a@b.c")]
  /\ localStorage r.2 = localStorage w.
Proof.
  intros w r.
  assert (Hw : write_succeeds (config_with true) (localStorage w) = false)
    by reflexivity.
  destruct (refused_write_leaves_action_committed (config_with true) w Hw)
    as [Hgeneral _].
  split; [exact Hw|]. exact (Hgeneral [("email", JStr "a@b.c")]).
Defined.

Lemma obj_spread_snoc target source k v :
  obj_spread target (source ++ [(k, v)]) = obj_set k v (obj_spread target source).
Proof. unfold obj_spread. by rewrite fold_left_app. Qed.

(** A property of [{ ...target, ...source }] is the last one [source] gives
    for the key, or that of [target] when [source] gives none. *)
Lemma own_property_obj_spread k target source :
  own_property k (obj_spread target source)
  = match own_property k (rev source) with
    | Some v => Some v
    | None => own_property k target
    end.
Proof.
  induction source as [|[k' v'] source IH] using rev_ind; [done|].
  rewrite obj_spread_snoc, rev_unit. simpl.
  destruct (String.eqb_spec k' k) as [->|Hne].
  - apply own_property_obj_set_same.
  - by rewrite own_property_obj_set_other.
Qed.

Lemma own_property_Some_In k v o : own_property k o = Some v -> In (k, v) o.
Proof.
  induction o as [|[k' v'] o IH]; simpl; [done|].
  destruct (String.eqb_spec k' k) as [->|Hne].
  - intros [= ->]. by left.
  - intros H. right. by apply IH.
Qed.

Lemma own_property_In_NoDup k v o :
  NoDup (object_keys o) -> In (k, v) o -> own_property k o = Some v.
Proof.
  induction o as [|[k' v'] o IH]; simpl; [done|].
  intros Hnd [[= -> ->]|Hin].
  - by rewrite String.eqb_refl.
  - inversion Hnd as [|? ? Hk Hnd']; subst.
    destruct (String.eqb_spec k' k) as [->|Hne].
    + exfalso. apply Hk. apply list_elem_of_In. unfold object_keys.
      apply in_map_iff. by exists (k, v).
    + by apply IH.
Qed.

Lemma own_property_rev k o :
  NoDup (object_keys o) -> own_property k (rev o) = own_property k o.
Proof.
  intros Hnd.
  assert (Hnd' : NoDup (object_keys (rev o))).
  { unfold object_keys. rewrite map_rev.
    apply NoDup_ListNoDup, List.NoDup_rev, NoDup_ListNoDup. done. }
  destruct (own_property k o) as [v|] eqn:E.
  - apply own_property_In_NoDup; [done|]. apply in_rev. rewrite rev_involutive.
    by apply own_property_Some_In.
  - destruct (own_property k (rev o)) as [v|] eqn:E'; [|done].
    apply own_property_Some_In, in_rev in E'.
    by rewrite (own_property_In_NoDup k v o Hnd E') in E.
Qed.

(** X8.  [updateGeneralState] merges shallowly: in the state it commits, a
    key of [data] holds the value [data] gives it and every other key of the
    shared payload holds the value it had; the steps and [generalInfo] are
    as before.  When the write succeeds the call returns that very state,
    and with persistence enabled the blob is its serialization. *)
Theorem updateGeneralState_merges config data w :
  NoDup (object_keys data) ->
  let r := useStepsActions.updateGeneralState config data w in
  (forall key,
     obj_get (generalState (stepperState r.2)) key
     = match own_property key data with
       | Some v => v
       | None => obj_get (generalState (stepperState w)) key
       end)
  /\ steps (stepperState r.2) = steps (stepperState w)
  /\ generalInfo (stepperState r.2) = generalInfo (stepperState w)
  /\ (write_succeeds config (localStorage w) = true ->
      r.1 = Returned (stepperState r.2)
      /\ localStorage r.2 = persisted config (stepperState r.2) (localStorage w)).
Proof.
  intros Hnd. cbv zeta. rewrite updateGeneralState_world. simpl.
  split; [|split; [done|split; [done|]]].
  - intros key. unfold obj_get. rewrite own_property_obj_spread.
    rewrite own_property_rev by done. by destruct (own_property key data).
  - by intros ->.
Qed.

Lemma updateGeneralState_merges_witness :
  let state :=
    mkStepperState (generalInfo mockStepperState) (steps mockStepperState)
      [("testData", JStr "initial")] None in
  let data := [("newTestData", JStr "updated")] in
  let r := useStepsActions.updateGeneralState (config_with false) data
             (world_at state 0) in
  NoDup (object_keys data)
  /\ obj_get (generalState (stepperState r.2)) "testData" = JStr "initial"
  /\ obj_get (generalState (stepperState r.2)) "newTestData" = JStr "updated".
Proof.
  intros state data r.
  assert (Hnd : NoDup (object_keys data)).
  { apply NoDup_cons. split; [apply not_elem_of_nil|apply NoDup_nil_2]. }
  destruct (updateGeneralState_merges (config_with false) data (world_at state 0) Hnd)
    as [Hkeys _].
  split; [exact Hnd|]. split.
  - exact (Hkeys "testData").
  - exact (Hkeys "newTestData").
Defined.

Lemma obj_set_same_value k v o : own_property k o = Some v -> obj_set k v o = o.
Proof.
  induction o as [|[k' v'] o IH]; simpl; [done|].
  destruct (String.eqb_spec k' k) as [->|Hne].
  - by intros [= ->].
  - intros H. by rewrite IH.
Qed.

Lemma obj_spread_absorbed target source :
  (forall k v, In (k, v) source -> own_property k target = Some v) ->
  obj_spread target source = target.
Proof.
  unfold obj_spread. revert target.
  induction source as [|[k v] source IH]; intros target H; simpl; [done|].
  rewrite obj_set_same_value by (apply H; by left).
  apply IH. intros k' v' Hin. apply H. by right.
Qed.

Lemma obj_spread_idempotent target source :
  NoDup (object_keys source) ->
  obj_spread (obj_spread target source) source = obj_spread target source.
Proof.
  intros Hnd. apply obj_spread_absorbed. intros k v Hin.
  rewrite own_property_obj_spread, own_property_rev by done.
  by rewrite (own_property_In_NoDup k v source Hnd Hin).
Qed.

(** X9.  [updateGeneralState] is idempotent: called again with the same
    [data] on the state the first call committed, it commits that state
    again. *)
Theorem updateGeneralState_idempotent config data w :
  NoDup (object_keys data) ->
  let w1 := (useStepsActions.updateGeneralState config data w).2 in
  stepperState (useStepsActions.updateGeneralState config data w1).2
  = stepperState w1.
Proof.
  intros Hnd. cbv zeta. rewrite !updateGeneralState_world. simpl.
  by rewrite obj_spread_idempotent.
Qed.

Lemma updateGeneralState_idempotent_witness :
  let data := [("email", JStr "a@b.c"); ("age", JNum (Finite 30))] in
  let w := world_at mockStepperState 0 in
  let w1 := (useStepsActions.updateGeneralState (config_with true) data w).2 in
  NoDup (object_keys data)
  /\ stepperState (useStepsActions.updateGeneralState (config_with true) data w1).2
     = stepperState w1.
Proof.
  intros data w w1.
  assert (Hnd : NoDup (object_keys data)).
  { apply (bool_decide_unpack _). vm_compute. exact I. }
  split; [exact Hnd|].
  exact (updateGeneralState_idempotent (config_with true) data w Hnd).
Defined.

(** * Further properties of the persistence adapter *)

(** X10.  [loadFromLocalStorage] never throws and never changes the store or
    the provider's cells.  It returns [null] when the key is absent, when
    the stored string is empty and when the stored string is not JSON, and
    logs a warning in the last case only; a stored JSON text comes back as
    the value it denotes. *)
Theorem loadFromLocalStorage_never_throws key w :
  let r := useStepperSync.loadFromLocalStorage key w in
  (exists v calls,
     r = (Returned v,
          mkWorld (stepperState w) (currentStep w) (loading w) (localStorage w)
                  (console w ++ calls)))
  /\ (items (localStorage w) !! key = None -> r = (Returned JNull, w))
  /\ (items (localStorage w) !! key = Some (PlainText "") -> r = (Returned JNull, w))
  /\ (forall s,
        s <> "" ->
        items (localStorage w) !! key = Some (PlainText s) ->
        r.1 = Returned JNull
        /\ console r.2 = (console w ++ [WarnFailedToLoad SyntaxError])%list)
  /\ (forall j,
        items (localStorage w) !! key = Some (JsonText j) ->
        r = (Returned (JSON_value j), w)).
Proof.
  cbv zeta.
  unfold useStepperSync.loadFromLocalStorage, try_catch, bind, localStorage_getItem,
    with_localStorage, lift, ret, console_call.
  destruct w as [st c l ls co]. simpl.
  destruct ls as [its refuses]. simpl.
  destruct (its !! key) as [[j|text]|] eqn:E; simpl.
  - split; [exists (JSON_value j), []; by rewrite app_nil_r|].
    repeat match goal with |- _ /\ _ => split end; intros; by simplify_eq.
  - destruct (String.eqb_spec text "") as [->|Hne]; simpl.
    + split; [exists JNull, []; by rewrite app_nil_r|].
      repeat match goal with |- _ /\ _ => split end; intros; by simplify_eq.
    + split; [by exists JNull, [WarnFailedToLoad SyntaxError]|].
      repeat match goal with |- _ /\ _ => split end; intros; by simplify_eq.
  - split; [exists JNull, []; by rewrite app_nil_r|].
    repeat match goal with |- _ /\ _ => split end; intros; by simplify_eq.
Qed.

Lemma loadFromLocalStorage_never_throws_witness :
  let w := mkWorld mockStepperState 0 false
             (mkLocalStorage {["stepperState" := PlainText "{broken"]} false) [] in
  let r := useStepperSync.loadFromLocalStorage "stepperState" w in
  "{broken" <> ""
  /\ items (localStorage w) !! "stepperState" = Some (PlainText "{broken")
  /\ r.1 = Returned JNull
  /\ console r.2 = [WarnFailedToLoad SyntaxError].
Proof.
  intros w r.
  assert (Hs : "{broken" <> "") by discriminate.
  assert (Hitem : items (localStorage w) !! "stepperState" = Some (PlainText "{broken"))
    by reflexivity.
  destruct (loadFromLocalStorage_never_throws "stepperState" w)
    as (_ & _ & _ & Hplain & _).
  split; [exact Hs|]. split; [exact Hitem|].
  exact (Hplain "{broken" Hs Hitem).
Defined.

(** X11.  [saveToLocalStorage] never throws.  A write the store refuses is
    logged as a warning and changes nothing else.  A value without a JSON
    text ([undefined]) is stored as the string ["undefined"], which
    [loadFromLocalStorage] cannot read back: it returns [null] and logs a
    warning. *)
Theorem saveToLocalStorage_never_throws key data w :
  let r := useStepperSync.saveToLocalStorage key data w in
  r.1 = Returned tt
  /\ stepperState r.2 = stepperState w
  /\ currentStep r.2 = currentStep w
  /\ (refusesWrites (localStorage w) = true ->
      localStorage r.2 = localStorage w
      /\ console r.2 = (console w ++ [WarnFailedToSave QuotaExceededError])%list)
  /\ (refusesWrites (localStorage w) = false ->
      JSON_stringify data = None ->
      let r' := useStepperSync.loadFromLocalStorage key r.2 in
      console r.2 = console w
      /\ items (localStorage r.2) !! key = Some (PlainText "undefined")
      /\ r'.1 = Returned JNull
      /\ console r'.2 = (console w ++ [WarnFailedToLoad SyntaxError])%list).
Proof.
  cbv zeta.
  unfold useStepperSync.saveToLocalStorage, useStepperSync.loadFromLocalStorage,
    try_catch, bind, localStorage_setItem, localStorage_getItem, with_localStorage,
    lift, ret, console_call.
  destruct (refusesWrites (localStorage w)) eqn:Er; simpl.
  - do 3 (split; [done|]). split; [done|]. intros [=].
  - do 3 (split; [done|]). split; [intros [=]|].
    intros _ Hd. rewrite Hd. simpl. rewrite lookup_insert_eq. simpl. done.
Qed.

Lemma saveToLocalStorage_never_throws_witness :
  let w := world_at mockStepperState 0 in
  let r := useStepperSync.saveToLocalStorage "stepperState" JUndefined w in
  let r' := useStepperSync.loadFromLocalStorage "stepperState" r.2 in
  refusesWrites (localStorage w) = false
  /\ JSON_stringify JUndefined = None
  /\ r.1 = Returned tt
  /\ r'.1 = Returned JNull
  /\ console r'.2 = [WarnFailedToLoad SyntaxError].
Proof.
  intros w r r'.
  assert (Hw : refusesWrites (localStorage w) = false) by reflexivity.
  assert (Hd : JSON_stringify JUndefined = None) by reflexivity.
  destruct (saveToLocalStorage_never_throws "stepperState" JUndefined w)
    as (Hret & _ & _ & _ & Hundef).
  destruct (Hundef Hw Hd) as (_ & _ & Hnull & Hlog).
  split; [exact Hw|]. split; [exact Hd|]. split; [exact Hret|].
  split; [exact Hnull|exact Hlog].
Defined.


(** * The provider: initial state and active step *)

Lemma filter_completed_dense (a : JsArray) :
  dense_objects a = true ->
  exists kept,
    array_filter (fun step => x <~ member step "isCompleted";; Returned (truthy x)) a
    = Returned kept
    /\ length kept = completed_steps a.
Proof.
  unfold dense_objects, completed_steps.
  induction a as [|slot a IH]; simpl; [by eexists|].
  intros H. apply andb_true_iff in H as [Hslot Ha].
  destruct (IH Ha) as (kept & E & Hlen).
  destruct slot as [[]|]; try done. simpl. rewrite E. simpl.
  destruct (truthy (obj_get props "isCompleted")); eexists; (split; [done|]); simpl;
    by rewrite Hlen.
Qed.

(** X13.  [createInitialState] gives either the empty default state at
    index 0, or a state it loaded: then persistence is enabled, the blob is
    a JSON object with an array under [steps], the state is that object
    with [isLoadedFromLocalStorage] set to true, nothing was logged, and the
    index lies between 0 and the number of saved steps, both included.  An
    error is logged only on the way to the default state. *)
Theorem createInitialState_shape config ls :
  let r := StepsContext.createInitialState config ls in
  (StepsContext.state r = StepperState_value StepsContext.baseState /\ StepsContext.initialStep r = 0)
  \/ (exists j props elems,
        persistence_enabled config = true
        /\ items ls !! "stepperState" = Some (JsonText j)
        /\ JSON_value j = JObj props
        /\ obj_get props "steps" = JArr elems
        /\ StepsContext.state r = JObj (obj_set "isLoadedFromLocalStorage" (JBool true) props)
        /\ 0 <= StepsContext.initialStep r <= Z.of_nat (length elems)
        /\ StepsContext.loadError r = None).
Proof.
  cbv zeta. unfold StepsContext.createInitialState, persistence_enabled.
  destruct (truthy (opt_member config "saveLocalStorage")); [|by left].
  unfold StepsContext.load_saved_state.
  destruct (items ls !! "stepperState") as [[j|text]|] eqn:Eitem; simpl;
    [| destruct (negb _); by left | by left].
  destruct (JSON_value j) as [| | | | | |props] eqn:Ej; simpl; try (by left).
  destruct (obj_get props "steps") as [| | | | |elems|] eqn:Esteps; simpl;
    try (by left).
  destruct (array_filter _ elems) as [kept|] eqn:Ekept; simpl; [|by left].
  right. exists j, props, elems. simpl.
  repeat (split; [done|]). split; [|done].
  apply array_filter_length in Ekept. lia.
Qed.

(** The blob of a representable state whose steps are all objects is read
    back as that state, flagged as loaded, with the count of its completed
    steps. *)
Lemma load_saved_state_restores ls (s : StepperState) :
  items ls !! "stepperState"
  = Some (stored_text (JSON_stringify (StepperState_value s))) ->
  json_representable (StepperState_value s) = true ->
  dense_objects (steps s) = true ->
  StepsContext.load_saved_state ls
  = Returned
      (Some (StepperState_value
               (mkStepperState (generalInfo s) (steps s) (generalState s) (Some true)),
             Z.of_nat (completed_steps (steps s)))).
Proof.
  intros Hitem Hrep Hdense.
  destruct (JSON_roundtrip _ Hrep) as (j & Ej & Ev).
  destruct (filter_completed_dense _ Hdense) as (kept & Ekept & Hlen).
  unfold StepsContext.load_saved_state.
  rewrite Hitem, Ej. simpl. rewrite Ev.
  unfold StepperState_value at 1. simpl. rewrite Ekept. simpl. rewrite Hlen.
  unfold StepperState_value. simpl.
  destruct (isLoadedFromLocalStorage s); reflexivity.
Qed.

(** X14.  A blob the hooks wrote is restored whole.  If the store holds the
    serialization of a stepper state JSON can represent whose steps are all
    objects, and persistence is enabled, [createInitialState] gives that
    state with [isLoadedFromLocalStorage] set to true, logs nothing, and
    starts at the number of steps whose [isCompleted] is truthy, which need
    not be the index that was active when the blob was written. *)
Theorem createInitialState_restores config ls (s : StepperState) :
  persistence_enabled config = true ->
  items ls !! "stepperState"
  = Some (stored_text (JSON_stringify (StepperState_value s))) ->
  json_representable (StepperState_value s) = true ->
  dense_objects (steps s) = true ->
  StepsContext.createInitialState config ls
  = StepsContext.mkInitialState
      (StepperState_value
         (mkStepperState (generalInfo s) (steps s) (generalState s) (Some true)))
      (Z.of_nat (completed_steps (steps s)))
      None.
Proof.
  intros Hp Hitem Hrep Hdense.
  unfold StepsContext.createInitialState. unfold persistence_enabled in Hp.
  by rewrite Hp, (load_saved_state_restores ls s Hitem Hrep Hdense).
Qed.

Lemma createInitialState_restores_witness :
  let s :=
    mkStepperState
      (mkGeneralInfo 2 (1 # 2) (1 # 2) 1)
      [Some (step_object "Step 1" true true false true);
       Some (step_object "Step 2" true true false false)]
      [("email", JStr "a@b.c")] None in
  let ls :=
    mkLocalStorage
      {["stepperState" := stored_text (JSON_stringify (StepperState_value s))]}
      false in
  persistence_enabled (config_with true) = true
  /\ items ls !! "stepperState"
     = Some (stored_text (JSON_stringify (StepperState_value s)))
  /\ json_representable (StepperState_value s) = true
  /\ dense_objects (steps s) = true
  /\ StepsContext.initialStep (StepsContext.createInitialState (config_with true) ls) = 1.
Proof.
  intros s ls.
  assert (Hp : persistence_enabled (config_with true) = true) by reflexivity.
  assert (Hitem : items ls !! "stepperState"
                  = Some (stored_text (JSON_stringify (StepperState_value s))))
    by reflexivity.
  assert (Hrep : json_representable (StepperState_value s) = true)
    by (vm_compute; reflexivity).
  assert (Hdense : dense_objects (steps s) = true) by reflexivity.
  split; [exact Hp|]. split; [exact Hitem|]. split; [exact Hrep|].
  split; [exact Hdense|].
  rewrite (createInitialState_restores (config_with true) ls s Hp Hitem Hrep Hdense).
  reflexivity.
Defined.

(** X15.  Navigation followed by a remount.  With persistence enabled, a
    navigation that moved the active index to another step left a blob from
    which [createInitialState] restores exactly the committed state, flagged
    as loaded (the committed state being representable in JSON, with
    objects for steps).  The index it restores is the count of completed
    steps of that state, not the index the navigation moved to. *)
Theorem navigation_then_remount config t args w :
  persistence_enabled config = true ->
  t <> currentStep w ->
  let w' := (useStepNavigation.executeStepNavigation config t args w).2 in
  currentStep w' = t ->
  json_representable (StepperState_value (stepperState w')) = true ->
  dense_objects (steps (stepperState w')) = true ->
  StepsContext.createInitialState config (localStorage w')
  = StepsContext.mkInitialState
      (StepperState_value
         (mkStepperState (generalInfo (stepperState w')) (steps (stepperState w'))
                         (generalState (stepperState w')) (Some true)))
      (Z.of_nat (completed_steps (steps (stepperState w'))))
      None.
Proof.
  intros Hp Hne. cbv zeta. rewrite executeStepNavigation_cases. simpl.
  destruct (nextState _ _ _ _ _) as [s|e]; simpl; [|congruence].
  destruct (write_succeeds _ _); simpl; [|congruence].
  destruct (useStepNavigation.await_callback _ _ _) as [[|e] w1]; simpl;
    [|congruence].
  intros _ Hrep Hdense.
  unfold StepsContext.createInitialState.
  pose proof Hp as Hp'. unfold persistence_enabled in Hp'. rewrite Hp'.
  rewrite (load_saved_state_restores _ s); [done| |done|done].
  unfold persisted. rewrite Hp. simpl. by rewrite lookup_insert_eq.
Qed.

Lemma navigation_then_remount_witness :
  let config := config_with true in
  let w := world_at mockStepperState 0 in
  let w' := (useStepNavigation.executeStepNavigation config 2 no_args w).2 in
  persistence_enabled config = true
  /\ 2 <> currentStep w
  /\ currentStep w' = 2
  /\ json_representable (StepperState_value (stepperState w')) = true
  /\ dense_objects (steps (stepperState w')) = true
  /\ StepsContext.initialStep
       (StepsContext.createInitialState config (localStorage w')) = 1.
Proof.
  intros config w w'.
  assert (Hp : persistence_enabled config = true) by reflexivity.
  assert (Hne : 2 <> currentStep w) by (simpl; lia).
  assert (Hc : currentStep w' = 2) by reflexivity.
  assert (Hrep : json_representable (StepperState_value (stepperState w')) = true)
    by (vm_compute; reflexivity).
  assert (Hdense : dense_objects (steps (stepperState w')) = true)
    by (vm_compute; reflexivity).
  split; [exact Hp|]. split; [exact Hne|]. split; [exact Hc|].
  split; [exact Hrep|]. split; [exact Hdense|].
  unfold w'.
  rewrite (navigation_then_remount config 2 no_args w Hp Hne Hc Hrep Hdense).
  vm_compute. reflexivity.
Defined.

(** X16.  Finishing the wizard forgets it.  With persistence enabled,
    [onNext] on the last step removes the blob whatever the callback does
    (resolve or reject), so that a remount starts from the empty default
    state at index 0 and logs nothing; the state in memory is left as it
    was. *)
Theorem onNext_on_last_step_then_remount config args w :
  persistence_enabled config = true ->
  currentStep w >= totalSteps (generalInfo (stepperState w)) - 1 ->
  let w' := (useStepNavigation.onNext config args w).2 in
  items (localStorage w') = delete "stepperState" (items (localStorage w))
  /\ stepperState w' = stepperState w
  /\ StepsContext.createInitialState config (localStorage w')
     = StepsContext.mkInitialState (StepperState_value StepsContext.baseState) 0 None.
Proof.
  intros Hp H. cbv zeta.
  assert (Hitems :
    items (localStorage (useStepNavigation.onNext config args w).2)
    = delete "stepperState" (items (localStorage w))).
  { unfold useStepNavigation.onNext.
    destruct (Z.geb_spec (currentStep w) (totalSteps (generalInfo (stepperState w)) - 1));
      [|lia].
    unfold persistence_enabled in Hp.
    unfold bind, ret, localStorage_removeItem, with_localStorage,
      useStepNavigation.await_callback, lift, console_call.
    rewrite Hp. simpl.
    destruct (onCompleteStep args) as [f|]; simpl; [|done].
    by destruct (f (stepperState w)). }
  split; [exact Hitems|]. split.
  - by apply (onNext_on_last_step_keeps_state config args w).
  - unfold StepsContext.createInitialState, StepsContext.load_saved_state.
    rewrite Hitems, lookup_delete_eq.
    by destruct (truthy _).
Qed.

Lemma onNext_on_last_step_then_remount_witness :
  let config := config_with true in
  let args := mkNavigationArgs (Some rejecting_callback) [] None in
  let w :=
    mkWorld mockStepperState 2 false
      (mkLocalStorage
         {["stepperState" := stored_text (JSON_stringify (StepperState_value mockStepperState))]}
         false)
      [] in
  persistence_enabled config = true
  /\ currentStep w >= totalSteps (generalInfo (stepperState w)) - 1
  /\ items (localStorage w) !! "stepperState" <> None
  /\ items (localStorage (useStepNavigation.onNext config args w).2) !! "stepperState"
     = None.
Proof.
  intros config args w.
  assert (Hp : persistence_enabled config = true) by reflexivity.
  assert (H : currentStep w >= totalSteps (generalInfo (stepperState w)) - 1)
    by (simpl; lia).
  split; [exact Hp|]. split; [exact H|]. split; [done|].
  destruct (onNext_on_last_step_then_remount config args w Hp H) as (Hitems & _ & _).
  rewrite Hitems. apply lookup_delete_eq.
Defined.

(** X17.  [cleanLocalStorage] removes the blob and nothing else: the state
    in memory and the active index stay, and a remount would start from the
    empty default state.  It does not switch persistence off: with
    persistence enabled and a store that takes writes, the next
    [updateGeneralState] writes the blob of the full current state again. *)
Theorem cleanLocalStorage_then_update config data w :
  persistence_enabled config = true ->
  refusesWrites (localStorage w) = false ->
  let w1 := (useStepsActions.cleanLocalStorage w).2 in
  let w2 := (useStepsActions.updateGeneralState config data w1).2 in
  stepperState w1 = stepperState w
  /\ currentStep w1 = currentStep w
  /\ StepsContext.createInitialState config (localStorage w1)
     = StepsContext.mkInitialState (StepperState_value StepsContext.baseState) 0 None
  /\ steps (stepperState w2) = steps (stepperState w)
  /\ items (localStorage w2) !! "stepperState"
     = Some (stored_text (JSON_stringify (StepperState_value (stepperState w2)))).
Proof.
  intros Hp Hw. cbv zeta. rewrite updateGeneralState_world.
  unfold useStepsActions.cleanLocalStorage, localStorage_removeItem, with_localStorage.
  simpl. do 2 (split; [done|]). split; [|split; [done|]].
  - unfold StepsContext.createInitialState, StepsContext.load_saved_state. simpl.
    rewrite lookup_delete_eq. by destruct (truthy _).
  - unfold write_succeeds, persisted. simpl. rewrite Hp, Hw. simpl.
    by rewrite lookup_insert_eq.
Qed.

Lemma cleanLocalStorage_then_update_witness :
  let config := config_with true in
  let w :=
    mkWorld mockStepperState 1 false
      (mkLocalStorage
         {["stepperState" := stored_text (JSON_stringify (StepperState_value mockStepperState))]}
         false)
      [] in
  let w1 := (useStepsActions.cleanLocalStorage w).2 in
  let w2 := (useStepsActions.updateGeneralState config [("email", JStr "a@b.c")] w1).2 in
  persistence_enabled config = true
  /\ refusesWrites (localStorage w) = false
  /\ items (localStorage w1) !! "stepperState" = None
  /\ items (localStorage w2) !! "stepperState"
     = Some (stored_text (JSON_stringify (StepperState_value (stepperState w2)))).
Proof.
  intros config w w1 w2.
  assert (Hp : persistence_enabled config = true) by reflexivity.
  assert (Hw : refusesWrites (localStorage w) = false) by reflexivity.
  split; [exact Hp|]. split; [exact Hw|]. split; [reflexivity|].
  exact (proj2 (proj2 (proj2 (proj2
    (cleanLocalStorage_then_update config [("email", JStr "a@b.c")] w Hp Hw))))).
Defined.

Lemma dense_objects_imap {A} (f : nat -> A -> JsObject) (l : list A) :
  dense_objects (imap (fun i x => Some (JObj (f i x))) l) = true.
Proof.
  unfold dense_objects. revert f.
  induction l as [|x l IH]; intros f; simpl; [done|]. apply IH.
Qed.


(** X18.  [setStepsInfo] replaces the steps and the general info and leaves
    everything else: [generalState] and [isLoadedFromLocalStorage] are kept,
    the active index is not reset, nothing is written to the store or to the
    console.  The new steps and general info depend on the step
    configurations only, not on the state it replaces; the steps are
    objects, one per configuration, and [totalSteps] is their number. *)
Theorem setStepsInfo_replaces_steps_only (stepConfigs : list JsObject) w :
  let r := useStepsActions.setStepsInfo stepConfigs w in
  let s' := stepperState r.2 in
  r.1 = Returned tt
  /\ generalState s' = generalState (stepperState w)
  /\ isLoadedFromLocalStorage s' = isLoadedFromLocalStorage (stepperState w)
  /\ currentStep r.2 = currentStep w
  /\ localStorage r.2 = localStorage w
  /\ console r.2 = console w
  /\ length (steps s') = length stepConfigs
  /\ length_invariant s'
  /\ dense_objects (steps s') = true
  /\ (forall w0,
        let s0 := stepperState (useStepsActions.setStepsInfo stepConfigs w0).2 in
        steps s0 = steps s' /\ generalInfo s0 = generalInfo s').
Proof.
  cbv zeta. unfold useStepsActions.setStepsInfo, updateStepperStateWith,
    length_invariant. simpl.
  do 6 (split; [done|]). rewrite length_imap.
  do 2 (split; [done|]). split; [|done].
  apply (dense_objects_imap
           (fun index step =>
              [("name", obj_get step "name");
               ("canAccess",
                  unless_undefined (obj_get step "canAccess")
                                   (JBool (Z.of_nat index =? 0)));
               ("canEdit", unless_undefined (obj_get step "canEdit") (JBool false));
               ("isOptional", logical_or (obj_get step "isOptional") (JBool false));
               ("isCompleted", logical_or (obj_get step "isCompleted") (JBool false))])).
Qed.



Lemma arr_get_lookup (a : JsArray) i v :
  0 <= i -> a !! Z.to_nat i = Some (Some v) -> arr_get a i = v.
Proof.
  intros Hi E. unfold arr_get. destruct (Z.ltb_spec i 0); [lia|]. by rewrite E.
Qed.

Lemma arr_get_outside (a : JsArray) i :
  i < 0 \/ Z.of_nat (length a) <= i -> arr_get a i = JUndefined.
Proof.
  intros Hi. unfold arr_get. destruct (Z.ltb_spec i 0); [done|].
  rewrite lookup_ge_None_2; [done|lia].
Qed.

(** X20.  The active step of a wizard standing on a step object is that
    step with three computed properties laid over it: [index] is the active
    index, [isFirstStep] says whether it is 0, [isLastStep] whether it is
    [totalSteps - 1], also when the step has properties of these names of
    its own; every other property reads as on the step. *)
Theorem activeStep_of_a_step (s : StepperState) c props :
  0 <= c ->
  steps s !! Z.to_nat c = Some (Some (JObj props)) ->
  let a := StepsContext.activeStep s c in
  obj_get a "index" = JNum (Finite (inject_Z c))
  /\ obj_get a "isFirstStep" = JBool (c =? 0)
  /\ obj_get a "isLastStep" = JBool (c =? totalSteps (generalInfo s) - 1)
  /\ (forall key,
        key <> "index" -> key <> "isFirstStep" -> key <> "isLastStep" ->
        obj_get a key = obj_get props key).
Proof.
  intros Hc E. cbv zeta. unfold StepsContext.activeStep.
  rewrite (arr_get_lookup _ _ _ Hc E). unfold logical_or. simpl.
  split; [|split; [|split]].
  - rewrite !obj_get_obj_set_other by done. apply obj_get_obj_set_same.
  - apply obj_get_obj_set_same.
  - rewrite obj_get_obj_set_other by done. apply obj_get_obj_set_same.
  - intros key H1 H2 H3. by rewrite !obj_get_obj_set_other.
Qed.

Lemma activeStep_of_a_step_witness :
  let s :=
    mkStepperState (mkGeneralInfo 2 0 0 (1 # 2))
      [Some (step_object "Step 1" true true false false);
       Some (JObj [("name", JStr "Step 2"); ("index", JStr "two");
                   ("isLastStep", JBool false)])]
      [] None in
  0 <= 1
  /\ steps s !! Z.to_nat 1
     = Some (Some (JObj [("name", JStr "Step 2"); ("index", JStr "two");
                         ("isLastStep", JBool false)]))
  /\ obj_get (StepsContext.activeStep s 1) "index" = JNum (Finite 1)
  /\ obj_get (StepsContext.activeStep s 1) "isLastStep" = JBool true
  /\ obj_get (StepsContext.activeStep s 1) "name" = JStr "Step 2".
Proof.
  intros s.
  assert (Hc : 0 <= 1) by lia.
  assert (E : steps s !! Z.to_nat 1
              = Some (Some (JObj [("name", JStr "Step 2"); ("index", JStr "two");
                                  ("isLastStep", JBool false)])))
    by reflexivity.
  split; [exact Hc|]. split; [exact E|].
  destruct (activeStep_of_a_step s 1 _ Hc E) as (Hi & _ & Hl & Hk).
  split; [exact Hi|]. split; [exact Hl|]. by apply Hk.
Defined.

(** X21.  When the active index is outside the steps (negative, or at or
    beyond their number, as before [setStepsInfo] ran) the active step is a
    placeholder: the name is empty and the four flags are false, while
    [index], [isFirstStep] and [isLastStep] are still computed from the
    index. *)
Theorem activeStep_without_a_step (s : StepperState) c :
  c < 0 \/ Z.of_nat (length (steps s)) <= c ->
  StepsContext.activeStep s c
  = [("name", JStr "");
     ("canAccess", JBool false);
     ("canEdit", JBool false);
     ("isOptional", JBool false);
     ("isCompleted", JBool false);
     ("index", JNum (Finite (inject_Z c)));
     ("isLastStep", JBool (c =? totalSteps (generalInfo s) - 1));
     ("isFirstStep", JBool (c =? 0))].
Proof.
  intros Hc. unfold StepsContext.activeStep.
  by rewrite (arr_get_outside _ _ Hc).
Qed.

Lemma activeStep_without_a_step_witness :
  (0 < 0 \/ Z.of_nat (length (steps StepsContext.baseState)) <= 0)
  /\ obj_get (StepsContext.activeStep StepsContext.baseState 0) "isFirstStep"
     = JBool true
  /\ obj_get (StepsContext.activeStep StepsContext.baseState 0) "isLastStep"
     = JBool false.
Proof.
  assert (Hc : 0 < 0 \/ Z.of_nat (length (steps StepsContext.baseState)) <= 0)
    by (right; simpl; lia).
  split; [exact Hc|].
  rewrite (activeStep_without_a_step StepsContext.baseState 0 Hc).
  split; reflexivity.
Defined.

Lemma completed_steps_all (a : JsArray) :
  Forall (fun slot => truthy (opt_member (default JUndefined slot) "isCompleted") = true) a ->
  completed_steps a = length a.
Proof.
  unfold completed_steps. induction 1 as [|slot a Hslot _ IH]; simpl; [done|].
  rewrite Hslot. simpl. by rewrite IH.
Qed.

(** X22.  Reloading a finished wizard puts it past its last step.  If the
    stored state has every step completed, [createInitialState] starts at
    the index equal to the number of steps, where there is no step: the
    active step shown for the restored state is the placeholder with an
    empty name, and when there is at least one step it is neither the first
    nor the last. *)
Theorem finished_wizard_restored_past_the_end config ls (s : StepperState) :
  persistence_enabled config = true ->
  items ls !! "stepperState"
  = Some (stored_text (JSON_stringify (StepperState_value s))) ->
  json_representable (StepperState_value s) = true ->
  dense_objects (steps s) = true ->
  length_invariant s ->
  steps s <> [] ->
  Forall (fun slot => truthy (opt_member (default JUndefined slot) "isCompleted") = true)
         (steps s) ->
  let r := StepsContext.createInitialState config ls in
  let restored :=
    mkStepperState (generalInfo s) (steps s) (generalState s) (Some true) in
  StepsContext.state r = StepperState_value restored
  /\ StepsContext.initialStep r = totalSteps (generalInfo s)
  /\ StepsContext.activeStep restored (StepsContext.initialStep r)
     = [("name", JStr "");
        ("canAccess", JBool false);
        ("canEdit", JBool false);
        ("isOptional", JBool false);
        ("isCompleted", JBool false);
        ("index", JNum (Finite (inject_Z (totalSteps (generalInfo s)))));
        ("isLastStep", JBool false);
        ("isFirstStep", JBool false)].
Proof.
  intros Hp Hitem Hrep Hdense Hinv Hne Hall. cbv zeta.
  unfold StepsContext.createInitialState. unfold persistence_enabled in Hp.
  rewrite Hp, (load_saved_state_restores ls s Hitem Hrep Hdense). simpl.
  rewrite (completed_steps_all _ Hall). unfold length_invariant in Hinv.
  rewrite Hinv. split; [done|]. split; [done|].
  unfold StepsContext.activeStep. simpl.
  rewrite arr_get_outside by (right; lia).
  assert (0 < totalSteps (generalInfo s)).
  { rewrite <- Hinv. destruct (steps s); [done|simpl; lia]. }
  unfold logical_or. simpl.
  destruct (Z.eqb_spec (totalSteps (generalInfo s)) 0); [lia|].
  destruct (Z.eqb_spec (totalSteps (generalInfo s)) (totalSteps (generalInfo s) - 1));
    [lia|done].
Qed.

Lemma finished_wizard_restored_past_the_end_witness :
  let s :=
    mkStepperState
      (mkGeneralInfo 2 1 1 1)
      [Some (step_object "Step 1" true true false true);
       Some (step_object "Step 2" true true false true)]
      [] None in
  let ls :=
    mkLocalStorage
      {["stepperState" := stored_text (JSON_stringify (StepperState_value s))]}
      false in
  persistence_enabled (config_with true) = true
  /\ items ls !! "stepperState"
     = Some (stored_text (JSON_stringify (StepperState_value s)))
  /\ json_representable (StepperState_value s) = true
  /\ dense_objects (steps s) = true
  /\ length_invariant s
  /\ steps s <> []
  /\ Forall (fun slot => truthy (opt_member (default JUndefined slot) "isCompleted") = true)
            (steps s)
  /\ StepsContext.initialStep (StepsContext.createInitialState (config_with true) ls) = 2.
Proof.
  intros s ls.
  assert (Hp : persistence_enabled (config_with true) = true) by reflexivity.
  assert (Hitem : items ls !! "stepperState"
                  = Some (stored_text (JSON_stringify (StepperState_value s))))
    by reflexivity.
  assert (Hrep : json_representable (StepperState_value s) = true)
    by (vm_compute; reflexivity).
  assert (Hdense : dense_objects (steps s) = true) by reflexivity.
  assert (Hinv : length_invariant s) by reflexivity.
  assert (Hne : steps s <> []) by done.
  assert (Hall : Forall (fun slot =>
                   truthy (opt_member (default JUndefined slot) "isCompleted") = true)
                   (steps s))
    by (repeat constructor).
  split; [exact Hp|]. split; [exact Hitem|]. split; [exact Hrep|].
  split; [exact Hdense|]. split; [exact Hinv|]. split; [exact Hne|].
  split; [exact Hall|].
  exact (proj1 (proj2
    (finished_wizard_restored_past_the_end (config_with true) ls s
       Hp Hitem Hrep Hdense Hinv Hne Hall))).
Defined.

(** X23.  A navigation is all or nothing in memory.  [executeStepNavigation]
    never throws and always ends with the busy flag cleared.  Either it
    commits the computed state together with the target index and logs
    nothing, or it keeps both the state and the index as they were and logs
    exactly one error. *)
Theorem executeStepNavigation_all_or_nothing config t args w :
  let r := useStepNavigation.executeStepNavigation config t args w in
  r.1 = Returned tt
  /\ loading r.2 = false
  /\ ((nextState config (stepperState w) (currentStep w) t args
       = Returned (stepperState r.2)
       /\ currentStep r.2 = t
       /\ console r.2 = console w)
      \/ (stepperState r.2 = stepperState w
          /\ currentStep r.2 = currentStep w
          /\ exists error,
               console r.2 = (console w ++ [ErrorInStepNavigation error])%list)).
Proof.
  cbv zeta. rewrite executeStepNavigation_cases. simpl.
  destruct (nextState _ _ _ _ _) as [s|e]; simpl;
    [|split; [done|split; [done|right; eauto]]].
  destruct (write_succeeds _ _); simpl;
    [|split; [done|split; [done|right; eauto]]].
  destruct (useStepNavigation.await_callback _ _ _) as [[|e] w1]; simpl;
    (split; [done|split; [done|]]); [left|right]; eauto.
Qed.

(** X24.  The blob can run ahead of the state.  With persistence enabled and
    a store that takes the write, a navigation whose callback rejects keeps
    the state and the index in memory, but the state it computed is already
    in the store: a remount restores that state, which was never committed
    (the computed state being representable in JSON, with objects for
    steps). *)
Theorem rejected_navigation_then_remount config t args w f s error :
  persistence_enabled config = true ->
  refusesWrites (localStorage w) = false ->
  nextState config (stepperState w) (currentStep w) t args = Returned s ->
  onCompleteStep args = Some f ->
  f s = Thrown error ->
  json_representable (StepperState_value s) = true ->
  dense_objects (steps s) = true ->
  let w' := (useStepNavigation.executeStepNavigation config t args w).2 in
  stepperState w' = stepperState w
  /\ currentStep w' = currentStep w
  /\ StepsContext.createInitialState config (localStorage w')
     = StepsContext.mkInitialState
         (StepperState_value
            (mkStepperState (generalInfo s) (steps s) (generalState s) (Some true)))
         (Z.of_nat (completed_steps (steps s)))
         None.
Proof.
  intros Hp Hw Es Hf He Hrep Hdense. cbv zeta.
  rewrite executeStepNavigation_cases, Es.
  unfold write_succeeds. rewrite Hp, Hw. simpl.
  unfold useStepNavigation.await_callback, lift. rewrite Hf, He. simpl.
  do 2 (split; [done|]).
  unfold StepsContext.createInitialState.
  pose proof Hp as Hp'. unfold persistence_enabled in Hp'. rewrite Hp'.
  rewrite (load_saved_state_restores _ s); [done| |done|done].
  unfold persisted. rewrite Hp. simpl. by rewrite lookup_insert_eq.
Qed.

Lemma rejected_navigation_then_remount_witness :
  let config := config_with true in
  let args := mkNavigationArgs (Some rejecting_callback) [] None in
  let w := world_at mockStepperState 0 in
  let w' := (useStepNavigation.executeStepNavigation config 1 args w).2 in
  let s :=
    match nextState config (stepperState w) (currentStep w) 1 args with
    | Returned s0 => s0
    | Thrown _ => mockStepperState
    end in
  persistence_enabled config = true
  /\ refusesWrites (localStorage w) = false
  /\ nextState config (stepperState w) (currentStep w) 1 args = Returned s
  /\ onCompleteStep args = Some rejecting_callback
  /\ rejecting_callback s = Thrown (Error (Literal "Test error"))
  /\ json_representable (StepperState_value s) = true
  /\ dense_objects (steps s) = true
  /\ stepperState w' = mockStepperState
  /\ StepsContext.initialStep
       (StepsContext.createInitialState config (localStorage w')) = 1.
Proof.
  intros config args w w' s.
  assert (Hp : persistence_enabled config = true) by reflexivity.
  assert (Hw : refusesWrites (localStorage w) = false) by reflexivity.
  assert (Es : nextState config (stepperState w) (currentStep w) 1 args = Returned s)
    by (vm_compute; reflexivity).
  assert (Hf : onCompleteStep args = Some rejecting_callback) by reflexivity.
  assert (He : rejecting_callback s = Thrown (Error (Literal "Test error")))
    by reflexivity.
  assert (Hrep : json_representable (StepperState_value s) = true)
    by (vm_compute; reflexivity).
  assert (Hdense : dense_objects (steps s) = true) by (vm_compute; reflexivity).
  split; [exact Hp|]. split; [exact Hw|]. split; [exact Es|]. split; [exact Hf|].
  split; [exact He|]. split; [exact Hrep|]. split; [exact Hdense|].
  destruct (rejected_navigation_then_remount config 1 args w rejecting_callback s
              (Error (Literal "Test error")) Hp Hw Es Hf He Hrep Hdense)
    as (Hstate & _ & Hremount).
  split; [exact Hstate|].
  unfold w'. rewrite Hremount. vm_compute. reflexivity.
Defined.
